(** * Memora AR navigation: a model of the dead-reckoning engine

    The development embeds the navigation core of the Memora patient app:
    [utils/navigation] (angle normalisation), [hooks/useDeviceSensors]
    (heading smoothing), [hooks/useBeaconScanner] (distance estimate and
    beacon list), [ARNavigation.tsx] (step detection, checkpoint correction,
    arrival) and [CalibrationModal.tsx] (sector coverage).

    Conventions.
    - A JavaScript [number] that carries a sensor quantity (angle, distance,
      acceleration, RSSI) is a real number [R]: the arithmetic is the exact
      one, IEEE-754 rounding is not modelled.  A [number] that only ever
      holds an integer (the step count, [Date.now()] in milliseconds) is a
      [Z].  Statements about the heading filter are kept to what does not
      hang on the rounding, and to inputs away from the wrap at 360.
    - React state ([useState], [useRef]) is a record that every effect takes
      and returns.  The module-level [headingBuffer] is a store of its own,
      threaded through [getSmoothedHeading], because it outlives the
      components.
    - One run of an effect is one event of the session; [setTimeout] is a
      pending deadline that fires when the clock of a later event has
      reached it. *)

From Stdlib Require Import Reals Lra Lia ZArith List String Bool.
From Stdlib Require Import Zfloor Sorted Permutation.
From stdpp Require Import base gmap sets.
Import ListNotations.
Open Scope R_scope.

(* ================================================================== *)
(** * JavaScript arithmetic on real numbers *)
(* ================================================================== *)

Module JsNum.

(** Comparisons as the booleans a JavaScript condition tests. *)
Definition ltb (a b : R) : bool := if Rlt_dec a b then true else false.
Definition gtb (a b : R) : bool := ltb b a.
Definition geb (a b : R) : bool := if Rle_dec b a then true else false.
Definition eqb (a b : R) : bool := if Req_dec_T a b then true else false.

(** Rounding toward zero, the quotient that [%] uses. *)
Definition Ztrunc (x : R) : Z := if Rlt_dec x 0 then Zceil x else Zfloor x.

(** [a % b]: the remainder has the sign of the dividend. *)
Definition js_rem (a b : R) : R := a - b * IZR (Ztrunc (a / b)).

(** [Math.atan2(y, x)], the angle of the point [(x, y)] in (-PI, PI]. *)
Definition Math_atan2 (y x : R) : R :=
  if Rlt_dec 0 x then atan (y / x)
  else if Rlt_dec x 0 then
    (if Rle_dec 0 y then atan (y / x) + PI else atan (y / x) - PI)
  else if Rlt_dec 0 y then PI / 2
  else if Rlt_dec y 0 then - (PI / 2)
  else 0.

(** [Math.pow(10, e)]. *)
Definition Math_pow10 (e : R) : R := Rpower 10 e.

(** [Math.floor]. *)
Definition Math_floor (x : R) : Z := Zfloor x.

End JsNum.

(* ================================================================== *)
(** * utils/navigation: BearingMath *)
(* ================================================================== *)

Module BearingMath.
Import JsNum.

(** [normalizeAngle(angle)]:
    [((angle + 180) % 360 + 360) % 360 - 180]. *)
Definition normalizeAngle (angle : R) : R :=
  js_rem (js_rem (angle + 180) 360 + 360) 360 - 180.

Definition DESTINATION_BEARING : R := 296.

(** The [relativeBearing] memo of [ARNavigation]: 0 while no heading has
    been observed, otherwise the normalised difference. *)
Definition relativeBearing (effectiveHeading : option R) : R :=
  match effectiveHeading with
  | None => 0
  | Some h => normalizeAngle (DESTINATION_BEARING - h)
  end.

End BearingMath.

(* ================================================================== *)
(** * hooks/useDeviceSensors: heading smoothing *)
(* ================================================================== *)

Module HeadingFilter.
Import JsNum.

Definition HEADING_SMOOTHING_BUFFER_SIZE : nat := 10.

(** [headingBuffer.reduce((sum, val) => sum + val, 0) / headingBuffer.length] *)
Definition lastAvg (headingBuffer : list R) : R :=
  fold_left (fun sum val => sum + val) headingBuffer 0
    / INR (length headingBuffer).

(** The wrap test at the head of [getSmoothedHeading]: a non-empty buffer
    is emptied when the new sample is more than 180 away from [lastAvg]. *)
Definition wrapReset (newHeading : R) (headingBuffer : list R) : list R :=
  match headingBuffer with
  | [] => []
  | _ :: _ =>
      if gtb (Rabs (newHeading - lastAvg headingBuffer)) 180
      then [] else headingBuffer
  end.

(** [push] followed by [shift] when the capacity is exceeded. *)
Definition pushBounded (newHeading : R) (headingBuffer : list R) : list R :=
  let pushed := headingBuffer ++ [newHeading] in
  if (HEADING_SMOOTHING_BUFFER_SIZE <? length pushed)%nat
  then tl pushed else pushed.

Definition sumX (headingBuffer : list R) : R :=
  fold_left (fun s angle => s + cos (angle * PI / 180)) headingBuffer 0.
Definition sumY (headingBuffer : list R) : R :=
  fold_left (fun s angle => s + sin (angle * PI / 180)) headingBuffer 0.

(** The second half of [getSmoothedHeading]: the angle of the averaged
    unit vectors, in degrees, with 360 added when it is negative.  The
    arithmetic is exact and the constant is pi.  Where the averaged vector
    points along the positive x axis (a mean at the wrap, as for the one
    sample 360) or vanishes (samples that cancel), the result of the
    doubles is decided by their rounding and is not the one given here;
    [HeadingFilterPI] takes the constant as a parameter for the first of
    the two. *)
Definition averageAngle (headingBuffer : list R) : R :=
  let avgX := sumX headingBuffer / INR (length headingBuffer) in
  let avgY := sumY headingBuffer / INR (length headingBuffer) in
  let avgAngleRad := Math_atan2 avgY avgX in
  let avgAngleDeg := avgAngleRad * 180 / PI in
  if ltb avgAngleDeg 0 then avgAngleDeg + 360 else avgAngleDeg.

(** [getSmoothedHeading(newHeading)] with the module-level
    [headingBuffer] passed in and out. *)
Definition getSmoothedHeading (newHeading : R) (headingBuffer : list R)
  : R * list R :=
  let headingBuffer' := pushBounded newHeading (wrapReset newHeading headingBuffer) in
  (averageAngle headingBuffer', headingBuffer').

(** The circular mean as the specification words it: [atan2] of the
    summed unit vectors, in degrees, normalised into [0, 360). *)
Definition circularMean (angles : list R) : R :=
  let deg := Math_atan2 (sumY angles) (sumX angles) * 180 / PI in
  if ltb deg 0 then deg + 360 else deg.

End HeadingFilter.

(* ================================================================== *)
(** * hooks/useDeviceSensors: the orientation handler and the process *)
(* ================================================================== *)

Module DeviceSensors.
Import JsNum.

(** The fields of a [deviceorientation] event that the handler reads;
    [None] is [null] / [undefined]. *)
Record OrientationEvent := {
  alpha : option R;
  webkitCompassHeading : option R
}.

(** [event.webkitCompassHeading || event.alpha]: a compass heading that is
    missing or 0 is falsy and gives way to [alpha]. *)
Definition compassHeading (event : OrientationEvent) (a : R) : R :=
  match webkitCompassHeading event with
  | Some w => if eqb w 0 then a else w
  | None => a
  end.

(** What lives where: [headingBuffer] is a constant of the module, created
    once when the bundle is loaded; [heading] is [useState(null)] of the
    hook instance of the mounted [ARNavigation]. *)
Record Process := {
  headingBuffer : list R;
  heading : option R
}.

(** The module has just been loaded and the first session mounted. *)
Definition processStart : Process :=
  {| headingBuffer := []; heading := None |}.

(** A later session: [ARNavigation] is mounted again, every [useState]
    starts over, the module constant is the one that is already there. *)
Definition mountSession (p : Process) : Process :=
  {| headingBuffer := headingBuffer p; heading := None |}.

(** [handleOrientation]. *)
Definition handleOrientation (event : OrientationEvent) (p : Process) : Process :=
  match alpha event with
  | None => p
  | Some a =>
      let '(h, buf) :=
        HeadingFilter.getSmoothedHeading (360 - compassHeading event a)
                                         (headingBuffer p) in
      {| headingBuffer := buf; heading := Some h |}
  end.

End DeviceSensors.

(* ================================================================== *)
(** * hooks/useBeaconScanner *)
(* ================================================================== *)

Module BeaconScanner.
Import JsNum.

Definition TX_POWER : R := -59.
Definition ENVIRONMENTAL_FACTOR : R := 2.0.

(** [estimateDistance(rssi)]; -1 stands for a distance that cannot be
    determined. *)
Definition estimateDistance (rssi : R) : R :=
  if eqb rssi 0 then -1.0
  else
    let ratio := rssi * 1.0 / TX_POWER in
    if ltb ratio 1.0 then ratio ^ 10
    else Math_pow10 ((TX_POWER - rssi) / (10 * ENVIRONMENTAL_FACTOR)).

(** The [Beacon] objects that [handleAdvertisement] builds. *)
Record Beacon := {
  id : string;
  name : option string;
  rssi : R;
  distance : R
}.

(** The fields of an [advertisementreceived] event. *)
Record Advertisement := {
  device_id : string;
  device_name : option string;
  event_rssi : R
}.

(** [device.name || null]: a missing or empty name is [null]. *)
Definition nameOrNull (n : option string) : option string :=
  match n with
  | Some s => if String.eqb s "" then None else Some s
  | None => None
  end.

Definition newBeacon (event : Advertisement) : Beacon :=
  {| id := device_id event;
     name := nameOrNull (device_name event);
     rssi := event_rssi event;
     distance := estimateDistance (event_rssi event) |}.

(** [prevBeacons.findIndex(b => b.id === id)] *)
Fixpoint findIndex (i : string) (l : list Beacon) : option nat :=
  match l with
  | [] => None
  | b :: rest =>
      if String.eqb (id b) i then Some O
      else option_map S (findIndex i rest)
  end.

(** [sort((a, b) => a.distance - b.distance)]: stable, closest first. *)
Fixpoint insertByDistance (b : Beacon) (l : list Beacon) : list Beacon :=
  match l with
  | [] => [b]
  | c :: rest =>
      if geb (distance c) (distance b) then b :: c :: rest
      else c :: insertByDistance b rest
  end.
Definition sortByDistance (l : list Beacon) : list Beacon :=
  fold_right insertByDistance [] l.

(** The updater that [handleAdvertisement] passes to [setBeacons]. *)
Definition handleAdvertisement (event : Advertisement)
           (prevBeacons : list Beacon) : list Beacon :=
  let updatedBeacons :=
    match findIndex (device_id event) prevBeacons with
    | Some existingBeaconIndex =>
        <[existingBeaconIndex := newBeacon event]> prevBeacons
    | None => prevBeacons ++ [newBeacon event]
    end in
  sortByDistance updatedBeacons.

End BeaconScanner.

(* ================================================================== *)
(** * ARNavigation.tsx: the session *)
(* ================================================================== *)

Module ARNavigation.
Import JsNum.

Definition TOTAL_STEPS : Z := 10.
Definition ARRIVAL_THRESHOLD_STEPS : R := 0.5.
Definition STEP_THRESHOLD : R := 1.8.
Definition STEP_LOCKOUT_MS : Z := 400.

Record Checkpoint := {
  name : string;
  step_checkpoint : Z;
  proximity_m : R
}.

Definition BEACON_CHECKPOINTS : list Checkpoint :=
  [ {| name := "Memora-Hallway"; step_checkpoint := 5; proximity_m := 1.5 |} ].

Inductive NavState :=
| REQUESTING_PERMISSIONS
| CALIBRATING
| NAVIGATING
| ARRIVED.

Definition NavState_eqb (a b : NavState) : bool :=
  match a, b with
  | REQUESTING_PERMISSIONS, REQUESTING_PERMISSIONS
  | CALIBRATING, CALIBRATING
  | NAVIGATING, NAVIGATING
  | ARRIVED, ARRIVED => true
  | _, _ => false
  end.

Record Vec3 := { x : R; y : R; z : R }.

(** [useState] and [useRef] values of one mounted [ARNavigation]. *)
Record Session := {
  navState : NavState;
  steps : Z;
  lastStepTime : Z;        (* lastStepTimeRef.current *)
  isPotentialStep : bool   (* isPotentialStepRef.current *)
}.

Definition initialSession : Session :=
  {| navState := REQUESTING_PERMISSIONS;
     steps := 0;
     lastStepTime := 0;
     isPotentialStep := false |}.

Definition magnitude (a : Vec3) : R :=
  sqrt (x a * x a + y a * y a + z a * z a).

(** Step Detection Logic: the effect on [linearAcceleration, navState];
    [now] is the value of [Date.now()]. *)
Definition stepDetectionEffect (s : Session)
           (linearAcceleration : option Vec3) (now : Z) : Session :=
  match linearAcceleration with
  | None => s
  | Some a =>
      if negb (NavState_eqb (navState s) NAVIGATING) then s
      else if (now - lastStepTime s <? STEP_LOCKOUT_MS)%Z then s
      else if gtb (magnitude a) STEP_THRESHOLD && negb (isPotentialStep s)
      then {| navState := navState s;
              steps := steps s;
              lastStepTime := lastStepTime s;
              isPotentialStep := true |}
      else if ltb (magnitude a) (STEP_THRESHOLD * 0.7) && isPotentialStep s
      then {| navState := navState s;
              steps := Z.min (steps s + 1) TOTAL_STEPS;
              lastStepTime := now;
              isPotentialStep := false |}
      else s
  end.

(** [cp.name === beacon.name]; a [null] name equals no checkpoint name. *)
Definition nameMatches (beacon : BeaconScanner.Beacon) (cp : Checkpoint) : bool :=
  match BeaconScanner.name beacon with
  | Some n => String.eqb (name cp) n
  | None => false
  end.

(** The updater passed to [setSteps] for a checkpoint in reach. *)
Definition snapTo (checkpoint : Checkpoint) (currentSteps : Z) : Z :=
  if (currentSteps <? step_checkpoint checkpoint)%Z
  then step_checkpoint checkpoint
  else currentSteps.

(** The body of the loop over [beacons], for one beacon. *)
Definition correctFor (checkpoints : list Checkpoint)
           (currentSteps : Z) (beacon : BeaconScanner.Beacon) : Z :=
  match find (nameMatches beacon) checkpoints with
  | Some checkpoint =>
      if ltb (BeaconScanner.distance beacon) (proximity_m checkpoint)
      then snapTo checkpoint currentSteps
      else currentSteps
  | None => currentSteps
  end.

(** Beacon Drift Correction: the effect on [beacons, navState]; the
    queued updaters are applied in the order of the loop. *)
Definition beaconCorrectionEffect (s : Session)
           (beacons : list BeaconScanner.Beacon) : Session :=
  if negb (NavState_eqb (navState s) NAVIGATING) then s
  else match beacons with
       | [] => s
       | _ :: _ =>
           {| navState := navState s;
              steps := fold_left (correctFor BEACON_CHECKPOINTS) beacons (steps s);
              lastStepTime := lastStepTime s;
              isPotentialStep := isPotentialStep s |}
       end.

(** Arrival Logic: the effect on [steps]. *)
Definition arrivalEffect (s : Session) : Session :=
  if geb (IZR (steps s)) (IZR TOTAL_STEPS - ARRIVAL_THRESHOLD_STEPS)
  then {| navState := ARRIVED;
          steps := steps s;
          lastStepTime := lastStepTime s;
          isPotentialStep := isPotentialStep s |}
  else s.

(** An effect that depends on [steps] runs after a render in which
    [steps] has changed. *)
Definition afterRender (before after : Session) : Session :=
  if (steps after =? steps before)%Z then after else arrivalEffect after.

(** [Math.max(0, TOTAL_STEPS - steps)] *)
Definition stepsRemaining (s : Session) : Z :=
  Z.max 0 (TOTAL_STEPS - steps s).

(** What a session reacts to: the grant of the motion permission, the
    camera stream that [handleStart] has asked for, the end of the
    calibration, and one run each of the step detection and beacon
    correction effects.  [handleStart] awaits [getUserMedia] after the
    motion permission; when the promise resolves it stores the stream and
    calls [setNavState('CALIBRATING')] whatever the state is by then.  A
    refused camera sets [permissionError] only, which is no part of the
    session.  In the code the stream arrives after the motion permission
    has been granted; the model lets it arrive at any time. *)
Inductive Event :=
| PermissionGranted                              (* permissionState is 'granted' *)
| CameraStarted                                  (* getUserMedia has resolved *)
| CalibrationDone                                (* the modal calls onComplete *)
| Motion (linearAcceleration : option Vec3) (now : Z)
| Beacons (beacons : list BeaconScanner.Beacon).

Definition dispatch (s : Session) (e : Event) : Session :=
  match e with
  | PermissionGranted =>
      if NavState_eqb (navState s) REQUESTING_PERMISSIONS
      then {| navState := CALIBRATING; steps := steps s;
              lastStepTime := lastStepTime s;
              isPotentialStep := isPotentialStep s |}
      else s
  | CameraStarted =>
      (* streamRef.current = stream; setNavState('CALIBRATING') *)
      {| navState := CALIBRATING; steps := steps s;
         lastStepTime := lastStepTime s;
         isPotentialStep := isPotentialStep s |}
  | CalibrationDone =>
      (* CalibrationModal is rendered in CALIBRATING only *)
      if NavState_eqb (navState s) CALIBRATING
      then {| navState := NAVIGATING; steps := steps s;
              lastStepTime := lastStepTime s;
              isPotentialStep := isPotentialStep s |}
      else s
  | Motion linearAcceleration now =>
      afterRender s (stepDetectionEffect s linearAcceleration now)
  | Beacons beacons =>
      afterRender s (beaconCorrectionEffect s beacons)
  end.

Definition run (s : Session) (events : list Event) : Session :=
  fold_left dispatch events s.

(** How often a run goes from NAVIGATING to ARRIVED. *)
Fixpoint arrivals (s : Session) (events : list Event) : nat :=
  match events with
  | [] => O
  | e :: rest =>
      let s' := dispatch s e in
      ((if NavState_eqb (navState s) NAVIGATING
           && NavState_eqb (navState s') ARRIVED then 1 else 0)
       + arrivals s' rest)%nat
  end.

End ARNavigation.

(* ================================================================== *)
(** * ARNavigation/CalibrationModal.tsx *)
(* ================================================================== *)

Module CalibrationModal.
Import JsNum.

Definition TOTAL_SEGMENTS : Z := 12.
Definition SKIP_DELAY_MS : Z := 7000.
Definition COMPLETE_DELAY_MS : Z := 1500.

(** One mounted modal.  A pending [setTimeout] is the time at which it is
    due.  [completions] counts the calls of [onComplete]; the parent
    answers the first one by leaving CALIBRATING, which unmounts the
    modal and runs the clean-ups of its effects. *)
Record Modal := {
  coveredSegments : gset Z;
  showSkipButton : bool;
  skipTimer : option Z;
  completeTimer : option Z;
  completions : nat;
  mounted : bool
}.

(** First render at time [now]: the skip timer is started. *)
Definition mount (now : Z) : Modal :=
  {| coveredSegments := ∅;
     showSkipButton := false;
     skipTimer := Some (now + SKIP_DELAY_MS)%Z;
     completeTimer := None;
     completions := 0;
     mounted := true |}.

(** [Math.floor(heading / (360 / TOTAL_SEGMENTS))] *)
Definition segmentOf (heading : R) : Z :=
  Math_floor (heading / (360 / IZR TOTAL_SEGMENTS)).

Definition progress (m : Modal) : R :=
  INR (size (coveredSegments m)) / IZR TOTAL_SEGMENTS.

Definition isComplete (m : Modal) : bool := geb (progress m) 1.

(** [onComplete()] is called: the parent unmounts the modal. *)
Definition callOnComplete (m : Modal) : Modal :=
  {| coveredSegments := coveredSegments m;
     showSkipButton := showSkipButton m;
     skipTimer := None;
     completeTimer := None;
     completions := S (completions m);
     mounted := false |}.

Definition due (timer : option Z) (now : Z) : bool :=
  match timer with
  | Some t => (t <=? now)%Z
  | None => false
  end.

(** The timers that are due at [now] run: first the skip timer, then the
    completion timer. *)
Definition fireTimers (now : Z) (m : Modal) : Modal :=
  let m1 :=
    if due (skipTimer m) now
    then {| coveredSegments := coveredSegments m;
            showSkipButton := true;
            skipTimer := None;
            completeTimer := completeTimer m;
            completions := completions m;
            mounted := mounted m |}
    else m in
  if due (completeTimer m1) now then callOnComplete m1 else m1.

(** The effect on [isComplete, onComplete], run because one of the two
    has changed: the clean-up of the previous run clears its timer, then a
    new timer is started when the calibration is complete. *)
Definition completionEffect (now : Z) (m : Modal) : Modal :=
  {| coveredSegments := coveredSegments m;
     showSkipButton := showSkipButton m;
     skipTimer := skipTimer m;
     completeTimer :=
       if isComplete m then Some (now + COMPLETE_DELAY_MS)%Z else None;
     completions := completions m;
     mounted := mounted m |}.

(** The effect on [heading]: the segment of a non-null heading is added
    to a copy of the set. *)
Definition headingEffect (heading : option R) (m : Modal) : Modal :=
  match heading with
  | None => m
  | Some h =>
      {| coveredSegments := {[ segmentOf h ]} ∪ coveredSegments m;
         showSkipButton := showSkipButton m;
         skipTimer := skipTimer m;
         completeTimer := completeTimer m;
         completions := completions m;
         mounted := mounted m |}
  end.

Inductive Input :=
| HeadingChanged (heading : option R)   (* the hook delivers a heading *)
| ParentRendered                        (* a new [onComplete] closure is passed down *)
| SkipClicked                           (* a click on Skip Calibration *)
| Tick.                                 (* time passes, nothing else *)

(** The skip button is on screen. *)
Definition skipAvailable (m : Modal) : bool :=
  mounted m && negb (isComplete m) && showSkipButton m.

Definition react (now : Z) (i : Input) (m : Modal) : Modal :=
  match i with
  | HeadingChanged heading =>
      let m' := headingEffect heading m in
      if Bool.eqb (isComplete m') (isComplete m) then m'
      else completionEffect now m'
  | ParentRendered => completionEffect now m
  | SkipClicked => if skipAvailable m then callOnComplete m else m
  | Tick => m
  end.

(** One input at time [now]: the timers due by then have run before it;
    an unmounted modal reacts to nothing. *)
Definition step (m : Modal) (e : Z * Input) : Modal :=
  let '(now, i) := e in
  let m1 := fireTimers now m in
  if mounted m1 then react now i m1 else m1.

Definition run (m : Modal) (trace : list (Z * Input)) : Modal :=
  fold_left step trace m.

End CalibrationModal.

(* ================================================================== *)
(** * hooks/useDeviceSensors: the motion handler *)
(* ================================================================== *)

Module MotionSensor.
Import JsNum.

(** A [DeviceMotionEventAcceleration]: each axis may be [null]. *)
Record Reading := {
  x : option R;
  y : option R;
  z : option R
}.

(** The fields of a [devicemotion] event that the handler reads. *)
Record MotionEvent := {
  acceleration : option Reading;
  accelerationIncludingGravity : option Reading
}.

(** [gravityRef.current] and the [linearAcceleration] state of the hook. *)
Record Hook := {
  gravity : ARNavigation.Vec3;
  linearAcceleration : option ARNavigation.Vec3
}.

Definition initialHook : Hook :=
  {| gravity := {| ARNavigation.x := 0; ARNavigation.y := 0; ARNavigation.z := 0 |};
     linearAcceleration := None |}.

(** The smoothing factor of the low-pass filter. *)
Definition alpha : R := 0.8.

(** [acc.x || 0] *)
Definition orZero (v : option R) : R :=
  match v with
  | Some r => r
  | None => 0
  end.

(** [alpha * gravityRef.current[i] + (1 - alpha) * (acc.x || 0)] *)
Definition lowPass (g raw : R) : R := alpha * g + (1 - alpha) * raw.

(** The [else if] branch of [handleMotion]: gravity is isolated with the
    low-pass filter and subtracted. *)
Definition fromGravity (event : MotionEvent) (hook : Hook) : Hook * bool :=
  match accelerationIncludingGravity event with
  | Some acc =>
      match x acc with
      | Some _ =>
          let g0 := lowPass (ARNavigation.x (gravity hook)) (orZero (x acc)) in
          let g1 := lowPass (ARNavigation.y (gravity hook)) (orZero (y acc)) in
          let g2 := lowPass (ARNavigation.z (gravity hook)) (orZero (z acc)) in
          ({| gravity := {| ARNavigation.x := g0; ARNavigation.y := g1;
                            ARNavigation.z := g2 |};
              linearAcceleration :=
                Some {| ARNavigation.x := orZero (x acc) - g0;
                        ARNavigation.y := orZero (y acc) - g1;
                        ARNavigation.z := orZero (z acc) - g2 |} |},
           true)
      | None => (hook, false)
      end
  | None => (hook, false)
  end.

(** [handleMotion]: the hook after the event, and whether
    [setLinearAcceleration] was called with a new object. *)
Definition handleMotion (event : MotionEvent) (hook : Hook) : Hook * bool :=
  match acceleration event with
  | Some a =>
      match x a with
      | Some ax =>
          match y a, z a with
          | Some ay, Some az =>
              ({| gravity := gravity hook;
                  linearAcceleration :=
                    Some {| ARNavigation.x := ax; ARNavigation.y := ay;
                            ARNavigation.z := az |} |},
               true)
          | _, _ => (hook, false)
          end
      | None => fromGravity event hook
      end
  | None => fromGravity event hook
  end.

End MotionSensor.

(* ================================================================== *)
(** * From the motion handler to the step detector *)
(* ================================================================== *)

Module Pipeline.

(** The hook instance of a mounted [ARNavigation] and its session. *)
Record State := {
  hook : MotionSensor.Hook;
  session : ARNavigation.Session
}.

(** A [devicemotion] event at the time [now]: the handler runs, and when
    it has set a new [linearAcceleration] the component renders and the
    step detection effect runs on it. *)
Definition motion (st : State) (e : MotionSensor.MotionEvent * Z) : State :=
  let '(event, now) := e in
  let '(hook', rendered) := MotionSensor.handleMotion event (hook st) in
  {| hook := hook';
     session :=
       if rendered
       then ARNavigation.dispatch (session st)
              (ARNavigation.Motion (MotionSensor.linearAcceleration hook') now)
       else session st |}.

Definition run (st : State) (events : list (MotionSensor.MotionEvent * Z)) : State :=
  fold_left motion events st.

End Pipeline.

(* ================================================================== *)
(** * hooks/useDeviceSensors: the instances of the hook *)
(* ================================================================== *)

Module SensorHook.

Inductive PermissionState := prompt | granted | denied.

(** The [useState] values of one instance of [useDeviceSensors] that the
    heading depends on.  Each component that calls the hook has an
    instance of its own; the heading buffer of the module is shared. *)
Record Instance := {
  permissionState : PermissionState;
  heading : option R
}.

(** The first render of a component that calls [useDeviceSensors()]. *)
Definition useDeviceSensors : Instance :=
  {| permissionState := prompt; heading := None |}.

(** What [requestPermissions] meets: a platform that asks for nothing (not
    iOS 13, or no [requestPermission] function), the answers to the
    orientation and the motion prompt, or a prompt that throws. *)
Inductive Platform :=
| NoPrompt
| Prompts (orientationPermission motionPermission : string)
| PromptThrows.

(** [requestPermissions]: the instance with its new [permissionState], and
    the boolean that the promise resolves to. *)
Definition requestPermissions (platform : Platform) (i : Instance)
  : Instance * bool :=
  match platform with
  | NoPrompt =>
      ({| permissionState := granted; heading := heading i |}, true)
  | Prompts orientationPermission motionPermission =>
      if String.eqb orientationPermission "granted"
         && String.eqb motionPermission "granted"
      then ({| permissionState := granted; heading := heading i |}, true)
      else ({| permissionState := denied; heading := heading i |}, false)
  | PromptThrows =>
      ({| permissionState := denied; heading := heading i |}, false)
  end.

(** The effect on [permissionState]: the listeners of the instance are on
    the window while its [permissionState] is 'granted', and only then. *)
Definition listening (i : Instance) : bool :=
  match permissionState i with
  | granted => true
  | _ => false
  end.

(** A [deviceorientation] event as one instance meets it: with its
    listener on the window [handleOrientation] runs, on the buffer of the
    module and the [heading] of the instance. *)
Definition hear (event : DeviceSensors.OrientationEvent)
           (headingBuffer : list R) (i : Instance) : list R * Instance :=
  if listening i
  then
    let p := DeviceSensors.handleOrientation event
               {| DeviceSensors.headingBuffer := headingBuffer;
                  DeviceSensors.heading := heading i |} in
    (DeviceSensors.headingBuffer p,
     {| permissionState := permissionState i;
        heading := DeviceSensors.heading p |})
  else (headingBuffer, i).

End SensorHook.

(* ================================================================== *)
(** * ARNavigation in CALIBRATING, with the modal it renders *)
(* ================================================================== *)

Module CalibrationScreen.
Import CalibrationModal.

(** [ARNavigation] calls [useDeviceSensors()] and, in CALIBRATING, renders
    [CalibrationModal], which calls [useDeviceSensors()] again. *)
Record Screen := {
  headingBuffer : list R;                  (* the constant of the module *)
  navigationHook : SensorHook.Instance;    (* the instance of ARNavigation *)
  modalHook : SensorHook.Instance;         (* the instance of CalibrationModal *)
  modal : Modal
}.

(** [ARNavigation] enters CALIBRATING at [now]: the modal is mounted, and
    with it a new instance of the hook. *)
Definition enter (now : Z) (headingBuffer : list R)
           (navigationHook : SensorHook.Instance) : Screen :=
  {| headingBuffer := headingBuffer;
     navigationHook := navigationHook;
     modalHook := SensorHook.useDeviceSensors;
     modal := mount now |}.

(** Whether a [setHeading] leaves the state as it is: no render follows
    then. *)
Definition sameHeading (a b : option R) : bool :=
  match a, b with
  | Some x, Some y => JsNum.eqb x y
  | None, None => true
  | _, _ => false
  end.

(** A [deviceorientation] event at the time [now].  The listeners run in
    the order in which they were added, the one of [ARNavigation] first.
    A new [heading] of [ARNavigation] renders it, and the modal receives a
    new [handleCalibrationComplete]; a new [heading] of the modal runs its
    effect on [heading]. *)
Definition orientation (s : Screen) (e : DeviceSensors.OrientationEvent * Z)
  : Screen :=
  let '(event, now) := e in
  let '(buffer1, navigationHook') :=
    SensorHook.hear event (headingBuffer s) (navigationHook s) in
  let '(buffer2, modalHook') := SensorHook.hear event buffer1 (modalHook s) in
  let m1 :=
    if sameHeading (SensorHook.heading navigationHook')
                   (SensorHook.heading (navigationHook s))
    then step (modal s) (now, Tick)
    else step (modal s) (now, ParentRendered) in
  let m2 :=
    if sameHeading (SensorHook.heading modalHook')
                   (SensorHook.heading (modalHook s))
    then m1
    else step m1 (now, HeadingChanged (SensorHook.heading modalHook')) in
  {| headingBuffer := buffer2;
     navigationHook := navigationHook';
     modalHook := modalHook';
     modal := m2 |}.

Definition run (s : Screen) (events : list (DeviceSensors.OrientationEvent * Z))
  : Screen :=
  fold_left orientation events s.

End CalibrationScreen.

(* ================================================================== *)
(** * The heading filter with [Math.PI] as a number of its own *)
(* ================================================================== *)

Module HeadingFilterPI.
Import JsNum.

(** [Math.PI] is the double nearest to pi, a little below it.  The second
    half of [getSmoothedHeading] once more, with the constant as a
    parameter and the arithmetic exact as everywhere else. *)
Definition sumX (Math_PI : R) (headingBuffer : list R) : R :=
  fold_left (fun s angle => s + cos (angle * Math_PI / 180)) headingBuffer 0.
Definition sumY (Math_PI : R) (headingBuffer : list R) : R :=
  fold_left (fun s angle => s + sin (angle * Math_PI / 180)) headingBuffer 0.

Definition averageAngle (Math_PI : R) (headingBuffer : list R) : R :=
  let avgX := sumX Math_PI headingBuffer / INR (length headingBuffer) in
  let avgY := sumY Math_PI headingBuffer / INR (length headingBuffer) in
  let avgAngleRad := Math_atan2 avgY avgX in
  let avgAngleDeg := avgAngleRad * 180 / Math_PI in
  if ltb avgAngleDeg 0 then avgAngleDeg + 360 else avgAngleDeg.

End HeadingFilterPI.

(* ================================================================== *)
(** * Vocabulary of the statements *)
(* ================================================================== *)

Module Props.
Import ARNavigation.

(** What holds of every session that the events can produce.  The
    converse of the second part does not hold: a camera stream that arrives
    late takes an arrived session back to CALIBRATING with its ten steps. *)
Definition SessionInv (s : Session) : Prop :=
  (0 <= steps s <= TOTAL_STEPS)%Z
  /\ (navState s = ARRIVED -> (TOTAL_STEPS <= steps s)%Z).

(** A sample whose magnitude is above the step threshold. *)
Definition rises (a : Vec3) : Prop := STEP_THRESHOLD < magnitude a.

(** A sample whose magnitude is below the confirmation threshold. *)
Definition drops (a : Vec3) : Prop := magnitude a < STEP_THRESHOLD * 0.7.

(** The lockout after the last confirmed step is over at [now]. *)
Definition unlocked (s : Session) (now : Z) : Prop :=
  (STEP_LOCKOUT_MS <= now - lastStepTime s)%Z.

(** A stream of motion samples with their arrival times, as events. *)
Definition motions (samples : list (Vec3 * Z)) : list Event :=
  map (fun '(a, now) => Motion (Some a) now) samples.

(** A session that has been granted its permissions and has left the
    calibration: NAVIGATING with no step counted. *)
Definition navigatingSession : Session :=
  run initialSession [PermissionGranted; CalibrationDone].

(** A sample that rises (2 m/s^2 along x) and one that drops (at rest). *)
Definition riseSample : Vec3 := {| x := 2; y := 0; z := 0 |}.
Definition restSample : Vec3 := {| x := 0; y := 0; z := 0 |}.

(** [n] clean steps, one second apart from [t] on: each rises at the start
    of its second and drops 100 ms later. *)
Fixpoint walk (n : nat) (t : Z) : list (Vec3 * Z) :=
  match n with
  | O => []
  | S k => (riseSample, t) :: (restSample, t + 100)%Z :: walk k (t + 1000)%Z
  end.

(** An advertisement of the hallway beacon with the given RSSI. *)
Definition hallwayAdvertisement (r : R) : BeaconScanner.Advertisement :=
  {| BeaconScanner.device_id := "hallway-1";
     BeaconScanner.device_name := Some "Memora-Hallway"%string;
     BeaconScanner.event_rssi := r |}.

End Props.

Module CalProps.
Import CalibrationModal.

(** The sectors of the circle: 0 to 11. *)
Definition allSegments : gset Z := list_to_set (seqZ 0 TOTAL_SEGMENTS).

(** A heading input carries a smoothed heading, which lies in [0, 360). *)
Definition headingInRange (i : Input) : Prop :=
  match i with
  | HeadingChanged (Some h) => 0 <= h < 360
  | _ => True
  end.

(** Heading samples with their arrival times, as inputs of the modal. *)
Definition headings (samples : list (Z * option R)) : list (Z * Input) :=
  map (fun '(now, h) => (now, HeadingChanged h)) samples.

(** What holds of every modal that the inputs can produce: while it is
    mounted [onComplete] has not been called and a complete calibration has
    its timer running; once unmounted [onComplete] has been called once and
    no timer is left. *)
Definition ModalInv (m : Modal) : Prop :=
  if mounted m
  then completions m = 0%nat
       /\ (isComplete m = true -> exists d, completeTimer m = Some d)
  else completions m = 1%nat /\ skipTimer m = None /\ completeTimer m = None.


(** Heading samples that all arrive at the time [now]. *)
Definition headingsAt (now : Z) (hs : list R) : list (Z * Input) :=
  headings (map (fun h => (now, Some h)) hs).

(** One heading in the middle of each sector. *)
Definition sectorMidpoints : list R :=
  [15; 45; 75; 105; 135; 165; 195; 225; 255; 285; 315; 345].

End CalProps.

Module HeadingProps.

(** A [deviceorientation] event with the given [alpha] and no
    [webkitCompassHeading]. *)
Definition orientation (a : R) : DeviceSensors.OrientationEvent :=
  {| DeviceSensors.alpha := Some a;
     DeviceSensors.webkitCompassHeading := None |}.

End HeadingProps.

Module ScanProps.
Import BeaconScanner.

(** The beacon list after a stream of advertisements, from the empty list
    of the first render. *)
Definition scan (events : list Advertisement) : list Beacon :=
  fold_left (fun beacons event => handleAdvertisement event beacons) events [].

(** The last advertisement of a stream that came from the device [i]. *)
Fixpoint latest (i : string) (events : list Advertisement) : option Advertisement :=
  match events with
  | [] => None
  | e :: rest =>
      match latest i rest with
      | Some e' => Some e'
      | None => if String.eqb (device_id e) i then Some e else None
      end
  end.

(** The list with the entry of the same id replaced by [nb], or with [nb]
    at its end when no entry has that id. *)
Fixpoint upsert (nb : Beacon) (l : list Beacon) : list Beacon :=
  match l with
  | [] => [nb]
  | c :: rest =>
      if String.eqb (id c) (id nb) then nb :: rest else c :: upsert nb rest
  end.

(** Closest first. *)
Definition byDistance (a b : Beacon) : Prop := distance a <= distance b.

(** A beacon that the correction effect takes for the hallway checkpoint
    in reach. *)
Definition hallwayInReach (b : Beacon) : bool :=
  match name b with
  | Some n => String.eqb "Memora-Hallway" n
  | None => false
  end && JsNum.ltb (distance b) 1.5.

End ScanProps.

Module MotionProps.
Import ARNavigation MotionSensor.

(** A [devicemotion] event of a platform without linear acceleration: only
    the reading with gravity, all three axes present. *)
Definition rawEvent (r : Vec3) : MotionEvent :=
  {| acceleration := None;
     accelerationIncludingGravity :=
       Some {| MotionSensor.x := Some (ARNavigation.x r);
               MotionSensor.y := Some (ARNavigation.y r);
               MotionSensor.z := Some (ARNavigation.z r) |} |}.

(** A [devicemotion] event of a platform with linear acceleration. *)
Definition linearEvent (a : Vec3) (withGravity : option Reading) : MotionEvent :=
  {| acceleration :=
       Some {| MotionSensor.x := Some (ARNavigation.x a);
               MotionSensor.y := Some (ARNavigation.y a);
               MotionSensor.z := Some (ARNavigation.z a) |};
     accelerationIncludingGravity := withGravity |}.

Definition vsub (a b : Vec3) : Vec3 :=
  {| ARNavigation.x := ARNavigation.x a - ARNavigation.x b;
     ARNavigation.y := ARNavigation.y a - ARNavigation.y b;
     ARNavigation.z := ARNavigation.z a - ARNavigation.z b |}.

Definition vscale (c : R) (a : Vec3) : Vec3 :=
  {| ARNavigation.x := c * ARNavigation.x a;
     ARNavigation.y := c * ARNavigation.y a;
     ARNavigation.z := c * ARNavigation.z a |}.

(** The hook after [n] events that all carry the raw reading [r]. *)
Definition hookAfter (n : nat) (r : Vec3) (h : Hook) : Hook :=
  fold_left (fun h' _ => fst (handleMotion (rawEvent r) h')) (seq 0 n) h.

(** The raw reading [r] at each of the times [ts]. *)
Definition rawEvents (r : Vec3) (ts : list Z) : list (MotionEvent * Z) :=
  map (fun t => (rawEvent r, t)) ts.

End MotionProps.

Module ProcessProps.
Import DeviceSensors.




End ProcessProps.

Module TimerProps.
Import CalibrationModal.

(** The inputs all arrive before the completion timer is due, where each
    render of the parent sets the timer anew. *)
Fixpoint keptBusy (due : Z) (trace : list (Z * Input)) : Prop :=
  match trace with
  | [] => True
  | (now, i) :: rest =>
      (now < due)%Z
      /\ keptBusy (match i with
                   | ParentRendered => (now + COMPLETE_DELAY_MS)%Z
                   | _ => due
                   end) rest
  end.

(** The timers agree with what is on screen: a shown skip button has no
    timer left, an incomplete calibration has no completion timer. *)
Definition TimersInv (m : Modal) : Prop :=
  (showSkipButton m = true -> skipTimer m = None)
  /\ (isComplete m = false -> completeTimer m = None).

End TimerProps.

Module BufferProps.
Import DeviceSensors ProcessProps.



End BufferProps.

Module ScreenProps.
Import DeviceSensors.

(** The hook instance of [ARNavigation] after [handleStart] has asked for
    the motion permission on a platform without prompts. *)
Definition grantedHook : SensorHook.Instance :=
  fst (SensorHook.requestPermissions SensorHook.NoPrompt SensorHook.useDeviceSensors).

(** An orientation event with the given [alpha] at the given time. *)
Definition alphaAt (a : R) (now : Z) : OrientationEvent * Z :=
  ({| alpha := Some a; webkitCompassHeading := None |}, now).

(** A modal that has seen no sector, has no completion pending and has
    not called [onComplete]. *)
Definition Untouched (m : CalibrationModal.Modal) : Prop :=
  CalibrationModal.coveredSegments m = ∅
  /\ CalibrationModal.completeTimer m = None
  /\ CalibrationModal.completions m = 0%nat
  /\ CalibrationModal.mounted m = true.

End ScreenProps.


(* ================================================================== *)
(** * Facts about the JavaScript arithmetic *)
(* ================================================================== *)

Section JsNumFacts.
Import JsNum.

Lemma ltb_true (a b : R) : a < b -> ltb a b = true.
Proof. intros H. unfold ltb. destruct (Rlt_dec a b); [reflexivity | contradiction]. Qed.

Lemma ltb_false (a b : R) : b <= a -> ltb a b = false.
Proof. intros H. unfold ltb. destruct (Rlt_dec a b); [lra | reflexivity]. Qed.

Lemma ltb_spec (a b : R) : ltb a b = true <-> a < b.
Proof. unfold ltb. destruct (Rlt_dec a b); split; intros; try easy. Qed.

Lemma gtb_true (a b : R) : b < a -> gtb a b = true.
Proof. apply ltb_true. Qed.

Lemma gtb_false (a b : R) : a <= b -> gtb a b = false.
Proof. apply ltb_false. Qed.

Lemma geb_true (a b : R) : b <= a -> geb a b = true.
Proof. intros H. unfold geb. destruct (Rle_dec b a); [reflexivity | contradiction]. Qed.

Lemma geb_false (a b : R) : a < b -> geb a b = false.
Proof. intros H. unfold geb. destruct (Rle_dec b a); [lra | reflexivity]. Qed.

Lemma geb_spec (a b : R) : geb a b = true <-> b <= a.
Proof. unfold geb. destruct (Rle_dec b a); split; intros; try easy. Qed.

Lemma eqb_refl (a : R) : eqb a a = true.
Proof. unfold eqb. destruct (Req_dec_T a a); [reflexivity | contradiction]. Qed.

Lemma eqb_neq (a b : R) : a <> b -> eqb a b = false.
Proof. intros H. unfold eqb. destruct (Req_dec_T a b); [contradiction | reflexivity]. Qed.

Lemma Ztrunc_IZR (k : Z) : Ztrunc (IZR k) = k.
Proof.
  unfold Ztrunc. destruct (Rlt_dec (IZR k) 0).
  - apply Zceil_eq. lra.
  - apply ZfloorZ.
Qed.

(** A remainder is smaller in size than the divisor. *)
Lemma js_rem_bounds (a b : R) : 0 < b -> - b < js_rem a b < b.
Proof.
  intros Hb. unfold js_rem, Ztrunc.
  assert (Ha : a = a / b * b) by (field; lra).
  destruct (Rlt_dec (a / b) 0) as [Hn | Hn].
  - pose proof (Zceil_bound (a / b)) as [H1 H2].
    set (q := a / b) in *. set (c := IZR (Zceil q)) in *. nra.
  - pose proof (Zfloor_bound (a / b)) as [H1 H2].
    set (q := a / b) in *. set (c := IZR (Zfloor q)) in *. nra.
Qed.

(** The remainder of a dividend that is not negative is not negative. *)
Lemma js_rem_nonneg (a b : R) : 0 <= a -> 0 < b -> 0 <= js_rem a b < b.
Proof.
  intros H0 Hb. unfold js_rem, Ztrunc.
  assert (Ha : a = a / b * b) by (field; lra).
  assert (Hq : 0 <= a / b).
  { apply Rmult_le_pos; [lra |]. left. apply Rinv_0_lt_compat. lra. }
  destruct (Rlt_dec (a / b) 0) as [Hn | Hn]; [lra |].
  pose proof (Zfloor_bound (a / b)) as [H1 H2].
  set (q := a / b) in *. set (c := IZR (Zfloor q)) in *. nra.
Qed.

(** Whole multiples of the divisor leave no remainder. *)
Lemma js_rem_multiple (k : Z) (b : R) : b <> 0 -> js_rem (b * IZR k) b = 0.
Proof.
  intros Hb. unfold js_rem.
  replace (b * IZR k / b) with (IZR k) by (field; assumption).
  rewrite Ztrunc_IZR. ring.
Qed.

(** A remainder differs from the dividend by a whole multiple. *)
Lemma js_rem_congr (a b : R) : exists k : Z, js_rem a b = a - b * IZR k.
Proof. exists (Ztrunc (a / b)). reflexivity. Qed.

End JsNumFacts.

(* ================================================================== *)
(** * BearingMath *)
(* ================================================================== *)

Section BearingMathFacts.
Import JsNum BearingMath.

Lemma normalizeAngle_range (x : R) : -180 <= normalizeAngle x < 180.
Proof.
  unfold normalizeAngle.
  pose proof (js_rem_bounds (x + 180) 360 ltac:(lra)) as [H1 H2].
  pose proof (js_rem_nonneg (js_rem (x + 180) 360 + 360) 360
                ltac:(lra) ltac:(lra)) as [H3 H4].
  lra.
Qed.

Lemma normalizeAngle_180 : normalizeAngle 180 = -180.
Proof.
  unfold normalizeAngle.
  replace (180 + 180) with (360 * IZR 1) by lra.
  rewrite js_rem_multiple by lra.
  replace (0 + 360) with (360 * IZR 1) by lra.
  rewrite js_rem_multiple by lra. lra.
Qed.

(** The result is the input moved by whole turns. *)
Lemma normalizeAngle_congr (x : R) :
  exists k : Z, normalizeAngle x = x + 360 * IZR k.
Proof.
  unfold normalizeAngle.
  destruct (js_rem_congr (x + 180) 360) as [k1 ->].
  destruct (js_rem_congr (x + 180 - 360 * IZR k1 + 360) 360) as [k2 ->].
  exists (1 - k1 - k2)%Z. rewrite !minus_IZR. lra.
Qed.

(** An angle that is already in [-180, 180) is left as it is. *)
Lemma normalizeAngle_id (x : R) : -180 <= x < 180 -> normalizeAngle x = x.
Proof.
  intros Hx.
  destruct (normalizeAngle_congr x) as [k Hk].
  pose proof (normalizeAngle_range x) as Hr.
  rewrite Hk in Hr |- *.
  assert (Hk0 : (k = 0)%Z).
  { assert (-1 < IZR k < 1) as [Ha Hb] by lra.
    apply lt_IZR in Ha, Hb. lia. }
  subst k. lra.
Qed.

(** The diagnostic scenarios of the 296 degree case. *)
Lemma relativeBearing_296_296 : relativeBearing (Some 296) = 0.
Proof.
  unfold relativeBearing, DESTINATION_BEARING.
  rewrite normalizeAngle_id; lra.
Qed.

Lemma relativeBearing_296_206 : relativeBearing (Some 206) = 90.
Proof.
  unfold relativeBearing, DESTINATION_BEARING.
  rewrite normalizeAngle_id; lra.
Qed.

Lemma relativeBearing_no_heading : relativeBearing None = 0.
Proof. reflexivity. Qed.

(** C2 (as stated), refuted: the claim puts [normalize(180)] at 180 and the
    range at (-180, 180]; the code returns -180 for the input 180, which is
    outside that interval. *)
Lemma C2_normalize_180_is_minus_180 :
  normalizeAngle 180 = -180 /\ ~ (-180 < normalizeAngle 180 <= 180)
  /\ normalizeAngle 180 <> 180.
Proof.
  rewrite normalizeAngle_180. repeat split; lra.
Qed.

(** C2 (amended): for every real [x], [normalizeAngle x] lies in the
    half-open interval [-180, 180), closed at the lower end, and is [x]
    moved by a whole number of turns; in particular [normalizeAngle 180] is
    -180. *)
Theorem C2_normalizeAngle_half_open_range :
  (forall x : R,
      -180 <= normalizeAngle x < 180
      /\ exists k : Z, normalizeAngle x = x + 360 * IZR k)
  /\ normalizeAngle 180 = -180.
Proof.
  split.
  - intros x. split; [apply normalizeAngle_range | apply normalizeAngle_congr].
  - apply normalizeAngle_180.
Qed.

End BearingMathFacts.

(* ================================================================== *)
(** * The session: invariants of the step count *)
(* ================================================================== *)

Section SessionFacts.
Import JsNum ARNavigation Props.

(** The arrival test on a whole number of steps. *)
Lemma arrival_threshold_int (n : Z) :
  IZR TOTAL_STEPS - ARRIVAL_THRESHOLD_STEPS <= IZR n <-> (TOTAL_STEPS <= n)%Z.
Proof.
  unfold TOTAL_STEPS, ARRIVAL_THRESHOLD_STEPS. split; intros H.
  - assert (H9 : IZR 9 < IZR n) by lra.
    apply lt_IZR in H9. lia.
  - apply IZR_le in H. lra.
Qed.

Lemma arrivalEffect_steps (s : Session) : steps (arrivalEffect s) = steps s.
Proof. unfold arrivalEffect. destruct (geb _ _); reflexivity. Qed.

Lemma arrivalEffect_arrived (s : Session) :
  (TOTAL_STEPS <= steps s)%Z -> navState (arrivalEffect s) = ARRIVED.
Proof.
  intros H. unfold arrivalEffect.
  rewrite geb_true by (apply arrival_threshold_int; exact H). reflexivity.
Qed.

Lemma arrivalEffect_below (s : Session) :
  (steps s < TOTAL_STEPS)%Z -> arrivalEffect s = s.
Proof.
  intros H. unfold arrivalEffect.
  rewrite geb_false; [reflexivity |].
  apply Rnot_le_lt. intros Hc. apply arrival_threshold_int in Hc. lia.
Qed.

Lemma afterRender_steps (s s' : Session) : steps (afterRender s s') = steps s'.
Proof.
  unfold afterRender. destruct (_ =? _)%Z; [reflexivity | apply arrivalEffect_steps].
Qed.

Lemma afterRender_same (s : Session) : afterRender s s = s.
Proof. unfold afterRender. rewrite Z.eqb_refl. reflexivity. Qed.

Lemma afterRender_same_steps (s s' : Session) :
  steps s' = steps s -> afterRender s s' = s'.
Proof. intros H. unfold afterRender. rewrite H, Z.eqb_refl. reflexivity. Qed.

(** The updater of a checkpoint never lowers the count and stops at the
    value of the checkpoint. *)
Lemma snapTo_spec (cp : Checkpoint) (n : Z) :
  snapTo cp n = Z.max n (step_checkpoint cp).
Proof. unfold snapTo. destruct (Z.ltb_spec n (step_checkpoint cp)); lia. Qed.

Lemma correctFor_ge (cps : list Checkpoint) (n : Z) (b : BeaconScanner.Beacon) :
  (n <= correctFor cps n b)%Z.
Proof.
  unfold correctFor. destruct (find _ cps); [| lia].
  destruct (ltb _ _); [rewrite snapTo_spec |]; lia.
Qed.

Lemma correctFor_configured (n : Z) (b : BeaconScanner.Beacon) :
  (n <= correctFor BEACON_CHECKPOINTS n b <= Z.max n 5)%Z.
Proof.
  split; [apply correctFor_ge |].
  unfold correctFor, BEACON_CHECKPOINTS. simpl.
  destruct (nameMatches _ _); [| lia].
  destruct (ltb _ _); [rewrite snapTo_spec; simpl |]; lia.
Qed.

Lemma fold_correctFor_configured (bs : list BeaconScanner.Beacon) (n : Z) :
  (n <= fold_left (correctFor BEACON_CHECKPOINTS) bs n <= Z.max n 5)%Z.
Proof.
  revert n. induction bs as [| b bs IH]; intros n; simpl; [lia |].
  specialize (IH (correctFor BEACON_CHECKPOINTS n b)).
  pose proof (correctFor_configured n b). lia.
Qed.

Lemma stepDetectionEffect_navState (s : Session) (a : option Vec3) (now : Z) :
  navState (stepDetectionEffect s a now) = navState s.
Proof.
  unfold stepDetectionEffect. destruct a; [| reflexivity].
  repeat (match goal with |- context [if ?c then _ else _] => destruct c end;
          try reflexivity).
Qed.

Lemma stepDetectionEffect_steps (s : Session) (a : option Vec3) (now : Z) :
  steps (stepDetectionEffect s a now) = steps s
  \/ (navState s = NAVIGATING
      /\ steps (stepDetectionEffect s a now) = Z.min (steps s + 1) TOTAL_STEPS).
Proof.
  unfold stepDetectionEffect. destruct a; [| left; reflexivity].
  destruct (navState s) eqn:E; simpl; try (left; reflexivity).
  repeat (match goal with |- context [if ?c then _ else _] => destruct c end;
          simpl; try (left; reflexivity)).
  right. split; reflexivity.
Qed.

Lemma beaconCorrectionEffect_navState (s : Session) (bs : list BeaconScanner.Beacon) :
  navState (beaconCorrectionEffect s bs) = navState s.
Proof.
  unfold beaconCorrectionEffect.
  destruct (negb _); [reflexivity |]. destruct bs; reflexivity.
Qed.

Lemma beaconCorrectionEffect_steps (s : Session) (bs : list BeaconScanner.Beacon) :
  (steps s <= steps (beaconCorrectionEffect s bs) <= Z.max (steps s) 5)%Z.
Proof.
  unfold beaconCorrectionEffect.
  destruct (negb _); [lia |]. destruct bs as [| b bs]; [lia |].
  cbn [steps]. apply (fold_correctFor_configured (b :: bs)).
Qed.

Lemma SessionInv_initial : SessionInv initialSession.
Proof.
  unfold SessionInv, initialSession, TOTAL_STEPS. simpl.
  split; [lia | discriminate].
Qed.

(** After an effect that keeps the state name and moves the count inside
    the bounds, the arrival effect restores the invariant. *)
Lemma afterRender_inv (s s' : Session) :
  SessionInv s ->
  navState s' = navState s ->
  (steps s <= steps s' <= TOTAL_STEPS)%Z ->
  SessionInv (afterRender s s').
Proof.
  intros [Hb Ha] Hn Hs. unfold afterRender.
  destruct (Z.eqb_spec (steps s') (steps s)) as [E | E].
  - unfold SessionInv. rewrite Hn, E. split; assumption.
  - unfold SessionInv. rewrite arrivalEffect_steps. split; [lia |].
    destruct (Z.eq_dec (steps s') TOTAL_STEPS) as [E10 | E10]; [lia |].
    rewrite arrivalEffect_below by lia. rewrite Hn.
    intros H. apply Ha in H. lia.
Qed.

Lemma dispatch_inv (s : Session) (e : Event) :
  SessionInv s -> SessionInv (dispatch s e).
Proof.
  intros HI. pose proof HI as [Hb Ha].
  destruct e as [| | | a now | bs]; simpl.
  - destruct (navState s) eqn:E; simpl; try exact HI.
    unfold SessionInv; simpl. split; [exact Hb | discriminate].
  - unfold SessionInv; simpl. split; [exact Hb | discriminate].
  - destruct (navState s) eqn:E; simpl; try exact HI.
    unfold SessionInv; simpl. split; [exact Hb | discriminate].
  - apply afterRender_inv; [exact HI | apply stepDetectionEffect_navState |].
    destruct (stepDetectionEffect_steps s a now) as [-> | [_ ->]]; lia.
  - apply afterRender_inv; [exact HI | apply beaconCorrectionEffect_navState |].
    pose proof (beaconCorrectionEffect_steps s bs). unfold TOTAL_STEPS in *. lia.
Qed.

Lemma run_inv (s : Session) (events : list Event) :
  SessionInv s -> SessionInv (run s events).
Proof.
  revert s. induction events as [| e events IH]; intros s HI; simpl; [exact HI |].
  apply IH, dispatch_inv, HI.
Qed.

Lemma run_app (s : Session) (l1 l2 : list Event) :
  run s (l1 ++ l2) = run (run s l1) l2.
Proof. unfold run. apply fold_left_app. Qed.

(** No event lowers the count of a session that satisfies the invariant. *)
Lemma dispatch_steps_mono (s : Session) (e : Event) :
  SessionInv s -> (steps s <= steps (dispatch s e))%Z.
Proof.
  intros [Hb _]. destruct e as [| | | a now | bs]; simpl.
  - destruct (NavState_eqb _ _); simpl; lia.
  - lia.
  - destruct (NavState_eqb _ _); simpl; lia.
  - rewrite afterRender_steps.
    destruct (stepDetectionEffect_steps s a now) as [-> | [_ ->]]; lia.
  - rewrite afterRender_steps. apply beaconCorrectionEffect_steps.
Qed.

Lemma run_steps_mono (s : Session) (events : list Event) :
  SessionInv s -> (steps s <= steps (run s events))%Z.
Proof.
  revert s. induction events as [| e events IH]; intros s HI; simpl; [lia |].
  pose proof (dispatch_steps_mono s e HI).
  pose proof (IH _ (dispatch_inv s e HI)). unfold run in *. lia.
Qed.

(** The count changes in NAVIGATING only. *)
Lemma dispatch_steps_change (s : Session) (e : Event) :
  steps (dispatch s e) <> steps s -> navState s = NAVIGATING.
Proof.
  intros H. destruct e as [| | | a now | bs]; cbn [dispatch] in H.
  - destruct (NavState_eqb _ _); cbn [steps] in H; congruence.
  - cbn [steps] in H. congruence.
  - destruct (NavState_eqb _ _); cbn [steps] in H; congruence.
  - rewrite afterRender_steps in H.
    destruct (stepDetectionEffect_steps s a now) as [E | [E _]]; [congruence | exact E].
  - rewrite afterRender_steps in H. unfold beaconCorrectionEffect in H.
    destruct (navState s); try reflexivity; cbn [NavState_eqb negb] in H; congruence.
Qed.

(** An event that changes the count runs the arrival effect on it. *)
Lemma dispatch_changed (s : Session) (e : Event) :
  steps (dispatch s e) <> steps s ->
  navState (dispatch s e)
  = if (TOTAL_STEPS <=? steps (dispatch s e))%Z then ARRIVED else NAVIGATING.
Proof.
  intros H. pose proof (dispatch_steps_change s e H) as Hn.
  assert (Hgen : forall s' : Session,
             navState s' = navState s -> steps s' <> steps s ->
             navState (afterRender s s')
             = if (TOTAL_STEPS <=? steps (afterRender s s'))%Z
               then ARRIVED else NAVIGATING).
  { intros s' Hn' Hs'. rewrite afterRender_steps. unfold afterRender.
    destruct (Z.eqb_spec (steps s') (steps s)) as [E | _]; [congruence |].
    destruct (Z.leb_spec TOTAL_STEPS (steps s')) as [Hle | Hlt].
    - apply arrivalEffect_arrived, Hle.
    - rewrite arrivalEffect_below by exact Hlt. congruence. }
  destruct e as [| | | a now | bs]; cbn [dispatch] in *.
  - destruct (NavState_eqb _ _); cbn [steps] in H; congruence.
  - cbn [steps] in H. congruence.
  - destruct (NavState_eqb _ _); cbn [steps] in H; congruence.
  - apply Hgen; [apply stepDetectionEffect_navState |].
    rewrite afterRender_steps in H. exact H.
  - apply Hgen; [apply beaconCorrectionEffect_navState |].
    rewrite afterRender_steps in H. exact H.
Qed.

(** An event that leaves the count alone does not enter ARRIVED. *)
Lemma dispatch_unchanged (s : Session) (e : Event) :
  steps (dispatch s e) = steps s ->
  navState (dispatch s e) = ARRIVED -> navState s = ARRIVED.
Proof.
  intros H Ha. destruct e as [| | | a now | bs]; cbn [dispatch] in *.
  - destruct (navState s) eqn:En; cbn [NavState_eqb navState] in Ha; congruence.
  - cbn [navState] in Ha. discriminate.
  - destruct (navState s) eqn:En; cbn [NavState_eqb navState] in Ha; congruence.
  - rewrite afterRender_steps in H.
    rewrite (afterRender_same_steps s _ H), stepDetectionEffect_navState in Ha.
    exact Ha.
  - rewrite afterRender_steps in H.
    rewrite (afterRender_same_steps s _ H), beaconCorrectionEffect_navState in Ha.
    exact Ha.
Qed.

(** ARRIVED is entered from NAVIGATING only. *)
Lemma dispatch_enters_arrived (s : Session) (e : Event) :
  navState (dispatch s e) = ARRIVED -> navState s <> ARRIVED ->
  navState s = NAVIGATING.
Proof.
  intros H Hn.
  destruct (Z.eq_dec (steps (dispatch s e)) (steps s)) as [E | E].
  - exfalso. apply Hn. exact (dispatch_unchanged s e E H).
  - exact (dispatch_steps_change s e E).
Qed.

(** No event takes a session away from ARRIVED, the camera stream that
    arrives late apart. *)
Lemma dispatch_arrived (s : Session) (e : Event) :
  navState s = ARRIVED -> e <> CameraStarted -> dispatch s e = s.
Proof.
  intros H He. destruct e as [| | | a now | bs]; simpl.
  - rewrite H. reflexivity.
  - congruence.
  - rewrite H. reflexivity.
  - unfold stepDetectionEffect. rewrite H. simpl.
    destruct a; unfold afterRender; rewrite Z.eqb_refl; reflexivity.
  - unfold beaconCorrectionEffect. rewrite H. simpl.
    unfold afterRender; rewrite Z.eqb_refl; reflexivity.
Qed.

(** A session whose count is full keeps it, and does not enter ARRIVED any
    more. *)
Lemma dispatch_full (s : Session) (e : Event) :
  SessionInv s -> steps s = TOTAL_STEPS ->
  steps (dispatch s e) = TOTAL_STEPS
  /\ (navState (dispatch s e) = ARRIVED -> navState s = ARRIVED).
Proof.
  intros HI Hs.
  pose proof (dispatch_steps_mono s e HI) as Hm.
  destruct (dispatch_inv s e HI) as [Hb _].
  assert (E : steps (dispatch s e) = steps s) by lia.
  split; [lia | apply dispatch_unchanged, E].
Qed.

Lemma run_full (s : Session) (events : list Event) :
  SessionInv s -> steps s = TOTAL_STEPS ->
  steps (run s events) = TOTAL_STEPS
  /\ (navState (run s events) = ARRIVED -> navState s = ARRIVED).
Proof.
  revert s. induction events as [| e events IH]; intros s HI Hs.
  - split; [exact Hs | tauto].
  - destruct (dispatch_full s e HI Hs) as [H1 H2].
    destruct (IH (dispatch s e) (dispatch_inv s e HI) H1) as [H3 H4].
    split; [exact H3 |]. intros H. apply H2, H4, H.
Qed.

Lemma arrivals_full (s : Session) (events : list Event) :
  SessionInv s -> steps s = TOTAL_STEPS -> arrivals s events = 0%nat.
Proof.
  revert s. induction events as [| e events IH]; intros s HI Hs; [reflexivity |].
  cbn [arrivals].
  destruct (dispatch_full s e HI Hs) as [H1 H2].
  rewrite (IH (dispatch s e) (dispatch_inv s e HI) H1).
  destruct (navState s) eqn:En; cbn [NavState_eqb andb]; try reflexivity.
  destruct (navState (dispatch s e)) eqn:Ed; cbn [NavState_eqb]; try reflexivity.
  specialize (H2 eq_refl). discriminate.
Qed.

(** A run from a session with room for a step arrives once when its count
    becomes full and not at all when it does not. *)
Lemma arrivals_count (s : Session) (events : list Event) :
  SessionInv s -> (steps s < TOTAL_STEPS)%Z ->
  arrivals s events
  = if (TOTAL_STEPS <=? steps (run s events))%Z then 1%nat else 0%nat.
Proof.
  revert s. induction events as [| e events IH]; intros s HI Hs.
  - cbn [arrivals run fold_left].
    destruct (Z.leb_spec TOTAL_STEPS (steps s)); [lia | reflexivity].
  - cbn [arrivals run fold_left]. fold (run (dispatch s e) events).
    pose proof (dispatch_inv s e HI) as HI'. pose proof HI' as [Hb' Ha'].
    destruct (Z.lt_ge_cases (steps (dispatch s e)) TOTAL_STEPS) as [Hlt | Hge].
    + rewrite (IH _ HI' Hlt).
      destruct (navState (dispatch s e)) eqn:Ed;
        try (rewrite andb_false_r; reflexivity).
      specialize (Ha' eq_refl). lia.
    + assert (Hch : steps (dispatch s e) <> steps s) by lia.
      rewrite (dispatch_steps_change s e Hch).
      rewrite (dispatch_changed s e Hch).
      destruct (Z.leb_spec TOTAL_STEPS (steps (dispatch s e))) as [_ | Hc]; [| lia].
      cbn [NavState_eqb andb].
      assert (Hfull : steps (dispatch s e) = TOTAL_STEPS) by lia.
      rewrite (arrivals_full _ events HI' Hfull).
      destruct (run_full _ events HI' Hfull) as [-> _].
      rewrite Z.leb_refl. reflexivity.
Qed.

End SessionFacts.

(* ================================================================== *)
(** * The step detector *)
(* ================================================================== *)

Section StepDetectorFacts.
Import JsNum ARNavigation Props.

Lemma lower_below_upper : STEP_THRESHOLD * 0.7 < STEP_THRESHOLD.
Proof. unfold STEP_THRESHOLD. lra. Qed.

Lemma unlocked_ltb (s : Session) (now : Z) :
  unlocked s now -> (now - lastStepTime s <? STEP_LOCKOUT_MS)%Z = false.
Proof. unfold unlocked. intros H. apply Z.ltb_ge. exact H. Qed.

(** While the lockout lasts a sample changes nothing. *)
Lemma stepDetectionEffect_locked (s : Session) (a : option Vec3) (now : Z) :
  (now - lastStepTime s < STEP_LOCKOUT_MS)%Z -> stepDetectionEffect s a now = s.
Proof.
  intros H. unfold stepDetectionEffect. destruct a; [| reflexivity].
  destruct (negb _); [reflexivity |].
  apply Z.ltb_lt in H. rewrite H. reflexivity.
Qed.

(** A rising sample arms an idle detector. *)
Lemma stepDetectionEffect_rise (s : Session) (a : Vec3) (now : Z) :
  navState s = NAVIGATING -> unlocked s now -> rises a ->
  isPotentialStep s = false ->
  stepDetectionEffect s (Some a) now
  = {| navState := NAVIGATING; steps := steps s;
       lastStepTime := lastStepTime s; isPotentialStep := true |}.
Proof.
  intros Hn Hu Hr Hp. unfold stepDetectionEffect.
  rewrite Hn, (unlocked_ltb s now Hu), Hp. simpl.
  rewrite gtb_true by exact Hr. reflexivity.
Qed.

(** A sample that does not drop leaves an armed detector as it is. *)
Lemma stepDetectionEffect_hold (s : Session) (a : Vec3) (now : Z) :
  ~ drops a -> isPotentialStep s = true ->
  stepDetectionEffect s (Some a) now = s.
Proof.
  intros Hd Hp. unfold stepDetectionEffect.
  destruct (negb _); [reflexivity |].
  destruct (_ <? _)%Z; [reflexivity |].
  rewrite Hp, andb_false_r.
  rewrite ltb_false; [reflexivity |].
  unfold drops in Hd. lra.
Qed.

(** A dropping sample confirms the step of an armed detector. *)
Lemma stepDetectionEffect_drop (s : Session) (a : Vec3) (now : Z) :
  navState s = NAVIGATING -> unlocked s now -> drops a ->
  isPotentialStep s = true ->
  stepDetectionEffect s (Some a) now
  = {| navState := NAVIGATING; steps := Z.min (steps s + 1) TOTAL_STEPS;
       lastStepTime := now; isPotentialStep := false |}.
Proof.
  intros Hn Hu Hd Hp. unfold stepDetectionEffect.
  rewrite Hn, (unlocked_ltb s now Hu), Hp. simpl.
  rewrite andb_false_r, ltb_true by exact Hd. reflexivity.
Qed.

(** No sample that stays at or above the lower threshold changes the
    count. *)
Lemma stepDetectionEffect_no_drop (s : Session) (a : Vec3) (now : Z) :
  ~ drops a -> steps (stepDetectionEffect s (Some a) now) = steps s.
Proof.
  intros Hd. unfold stepDetectionEffect.
  destruct (negb _); [reflexivity |].
  destruct (_ <? _)%Z; [reflexivity |].
  destruct (gtb _ _ && _); [reflexivity |].
  rewrite ltb_false; [reflexivity |].
  unfold drops in Hd. lra.
Qed.

Lemma run_motions_cons (s : Session) (a : Vec3) (now : Z) (l : list (Vec3 * Z)) :
  run s (motions ((a, now) :: l)) = run (dispatch s (Motion (Some a) now)) (motions l).
Proof. reflexivity. Qed.

(** Samples that never drop below the lower threshold confirm nothing. *)
Lemma run_no_drop (samples : list (Vec3 * Z)) (s : Session) :
  Forall (fun p => ~ drops (fst p)) samples ->
  steps (run s (motions samples)) = steps s.
Proof.
  revert s. induction samples as [| [a now] l IH]; intros s H; [reflexivity |].
  inversion H as [| ? ? Ha Hl]; subst. simpl in Ha.
  rewrite run_motions_cons, IH by exact Hl.
  simpl. rewrite afterRender_steps. apply stepDetectionEffect_no_drop, Ha.
Qed.

(** An armed detector stays as it is over samples that do not drop. *)
Lemma run_hold (samples : list (Vec3 * Z)) (s : Session) :
  Forall (fun p => ~ drops (fst p)) samples ->
  isPotentialStep s = true ->
  run s (motions samples) = s.
Proof.
  induction samples as [| [a now] l IH]; intros H Hp; [reflexivity |].
  inversion H as [| ? ? Ha Hl]; subst. simpl in Ha.
  rewrite run_motions_cons. cbn [dispatch].
  rewrite stepDetectionEffect_hold by assumption.
  rewrite afterRender_same. apply IH; assumption.
Qed.

(** The session after a rise, samples in between that do not drop, and a
    drop, all outside the lockout: one step more, the lockout restarted at
    the drop. *)
Lemma run_cycle (s : Session) (rise drop : Vec3) (tr td : Z)
      (mids : list (Vec3 * Z)) :
  navState s = NAVIGATING -> (steps s < TOTAL_STEPS)%Z ->
  rises rise -> Forall (fun p => ~ drops (fst p)) mids -> drops drop ->
  unlocked s tr -> unlocked s td ->
  run s (motions ((rise, tr) :: mids ++ [(drop, td)]))
  = arrivalEffect {| navState := NAVIGATING; steps := steps s + 1;
                     lastStepTime := td; isPotentialStep := false |}.
Proof.
  intros Hn Hs Hr Hm Hd Hu1 Hu2.
  rewrite run_motions_cons.
  assert (Harmed : dispatch s (Motion (Some rise) tr)
                   = {| navState := NAVIGATING; steps := steps s;
                        lastStepTime := lastStepTime s; isPotentialStep := true |}).
  { cbn [dispatch]. destruct (isPotentialStep s) eqn:Hp.
    - rewrite stepDetectionEffect_hold; [| | exact Hp].
      + rewrite afterRender_same. destruct s; simpl in *; subst; reflexivity.
      + unfold drops, rises in *. pose proof lower_below_upper. lra.
    - rewrite stepDetectionEffect_rise by assumption.
      apply afterRender_same_steps. reflexivity. }
  rewrite Harmed. unfold motions. rewrite map_app.
  fold (motions mids). rewrite run_app.
  rewrite (run_hold mids); [| exact Hm | reflexivity].
  cbn [run motions map fold_left dispatch].
  rewrite stepDetectionEffect_drop by (assumption || reflexivity).
  unfold afterRender. cbn [steps].
  replace (Z.min (steps s + 1) TOTAL_STEPS) with (steps s + 1)%Z by lia.
  destruct (Z.eqb_spec (steps s + 1) (steps s)); [lia | reflexivity].
Qed.

Lemma run_cycle_steps (s : Session) (rise drop : Vec3) (tr td : Z)
      (mids : list (Vec3 * Z)) :
  navState s = NAVIGATING -> (steps s < TOTAL_STEPS)%Z ->
  rises rise -> Forall (fun p => ~ drops (fst p)) mids -> drops drop ->
  unlocked s tr -> unlocked s td ->
  steps (run s (motions ((rise, tr) :: mids ++ [(drop, td)]))) = (steps s + 1)%Z.
Proof.
  intros. rewrite run_cycle by assumption. apply arrivalEffect_steps.
Qed.

(** Samples along the x axis have the size of their x component. *)
Lemma magnitude_x_axis (v : R) :
  0 <= v -> magnitude {| x := v; y := 0; z := 0 |} = v.
Proof.
  intros H. unfold magnitude. simpl.
  replace (v * v + 0 * 0 + 0 * 0) with (v * v) by ring.
  apply sqrt_square, H.
Qed.

Lemma rises_riseSample : rises riseSample.
Proof.
  unfold rises, riseSample. rewrite magnitude_x_axis by lra.
  unfold STEP_THRESHOLD. lra.
Qed.

Lemma drops_restSample : drops restSample.
Proof.
  unfold drops, restSample. rewrite magnitude_x_axis by lra.
  unfold STEP_THRESHOLD. lra.
Qed.

(** A sample that does not rise leaves an idle detector as it is. *)
Lemma stepDetectionEffect_idle (s : Session) (a : Vec3) (now : Z) :
  ~ rises a -> isPotentialStep s = false ->
  stepDetectionEffect s (Some a) now = s.
Proof.
  intros Hr Hp. unfold stepDetectionEffect.
  destruct (negb _); [reflexivity |].
  destruct (_ <? _)%Z; [reflexivity |].
  rewrite Hp, andb_false_r.
  rewrite gtb_false; [reflexivity |].
  unfold rises in Hr. lra.
Qed.

(** [n] clean steps from a navigating session with room for them. *)
Lemma run_walk (n : nat) (s : Session) (t : Z) :
  navState s = NAVIGATING -> (steps s + Z.of_nat n <= TOTAL_STEPS)%Z ->
  (steps s < TOTAL_STEPS)%Z -> unlocked s t ->
  steps (run s (motions (walk n t))) = (steps s + Z.of_nat n)%Z
  /\ navState (run s (motions (walk n t)))
     = (if (steps s + Z.of_nat n =? TOTAL_STEPS)%Z then ARRIVED else NAVIGATING).
Proof.
  revert s t. induction n as [| k IH]; intros s t Hn Hb Hlt Hu.
  - simpl. rewrite Z.add_0_r, Hn.
    destruct (Z.eqb_spec (steps s) TOTAL_STEPS); [lia |]. split; reflexivity.
  - change (walk (S k) t)
      with ((riseSample, t) :: [] ++ [(restSample, (t + 100)%Z)] ++ walk k (t + 1000)%Z).
    rewrite app_assoc.
    change ((riseSample, t) :: ([] ++ [(restSample, (t + 100)%Z)]) ++ walk k (t + 1000)%Z)
      with (((riseSample, t) :: [] ++ [(restSample, (t + 100)%Z)]) ++ walk k (t + 1000)%Z).
    unfold motions at 1 2. rewrite map_app.
    fold (motions ((riseSample, t) :: [] ++ [(restSample, (t + 100)%Z)])).
    fold (motions (walk k (t + 1000)%Z)).
    rewrite run_app.
    rewrite run_cycle;
      [| exact Hn | exact Hlt | exact rises_riseSample | constructor
       | exact drops_restSample | exact Hu | unfold unlocked in *; lia ].
    destruct (Z.eq_dec (steps s + 1)%Z TOTAL_STEPS) as [E | E].
    + assert (k = O) by lia. subst k. simpl walk. simpl motions.
      unfold run at 1 2. simpl fold_left.
      rewrite arrivalEffect_steps.
      rewrite arrivalEffect_arrived by (simpl; lia). simpl steps.
      replace (steps s + Z.of_nat 1)%Z with (steps s + 1)%Z by lia.
      rewrite E, Z.eqb_refl. split; reflexivity.
    + rewrite arrivalEffect_below by (simpl; lia).
      destruct (IH {| navState := NAVIGATING; steps := (steps s + 1)%Z;
                      lastStepTime := (t + 100)%Z; isPotentialStep := false |}
                   (t + 1000)%Z) as [H1 H2];
        try (simpl; lia); [reflexivity | unfold unlocked; simpl; unfold STEP_LOCKOUT_MS; lia |].
      simpl steps in H1, H2.
      replace (steps s + Z.of_nat (S k))%Z with (steps s + 1 + Z.of_nat k)%Z by lia.
      split; assumption.
Qed.

Lemma navigatingSession_eq :
  navigatingSession
  = {| navState := NAVIGATING; steps := 0; lastStepTime := 0;
       isPotentialStep := false |}.
Proof. reflexivity. Qed.

End StepDetectorFacts.

(* ================================================================== *)
(** * Arrival, monotonicity and the bound of the step count *)
(* ================================================================== *)

Section SessionClaims.
Import JsNum ARNavigation Props.

Lemma stepsRemaining_inv (s : Session) :
  SessionInv s -> stepsRemaining s = (TOTAL_STEPS - steps s)%Z.
Proof. intros [Hb _]. unfold stepsRemaining. lia. Qed.

(** Ten clean steps after the calibration: the session arrives, once, with
    no step remaining. *)
Lemma ten_steps_arrive :
  let events := [PermissionGranted; CalibrationDone] ++ motions (walk 10 1000) in
  navState (run initialSession events) = ARRIVED
  /\ steps (run initialSession events) = 10%Z
  /\ stepsRemaining (run initialSession events) = 0%Z
  /\ arrivals initialSession events = 1%nat.
Proof.
  intros events. subst events.
  destruct (run_walk 10 navigatingSession 1000) as [H1 H2].
  - reflexivity.
  - rewrite navigatingSession_eq. cbn [steps]. unfold TOTAL_STEPS. lia.
  - rewrite navigatingSession_eq. cbn [steps]. unfold TOTAL_STEPS. lia.
  - rewrite navigatingSession_eq. unfold unlocked, STEP_LOCKOUT_MS.
    cbn [lastStepTime]. lia.
  - change (steps navigatingSession + Z.of_nat 10)%Z with 10%Z in H1, H2.
    change (10 =? TOTAL_STEPS)%Z with true in H2. cbv iota in H2.
    assert (Hs : navState (run initialSession
                   ([PermissionGranted; CalibrationDone] ++ motions (walk 10 1000)))
                 = ARRIVED).
    { rewrite run_app. exact H2. }
    split; [exact Hs |].
    split; [rewrite run_app; exact H1 |].
    split.
    + unfold stepsRemaining. rewrite run_app.
      fold navigatingSession. rewrite H1. reflexivity.
    + rewrite arrivals_count
        by (apply SessionInv_initial || (cbn [steps initialSession]; unfold TOTAL_STEPS; lia)).
      rewrite run_app. fold navigatingSession. rewrite H1. reflexivity.
Qed.

(** C3: along every run of a session, the run goes from NAVIGATING to
    ARRIVED at most once, and once exactly when the step count satisfies
    [steps >= TOTAL_STEPS - ARRIVAL_THRESHOLD_STEPS] (which on the
    whole-numbered count is [steps = 10]); a session in ARRIVED has such a
    count; [stepsRemaining] is [max 0 (TOTAL_STEPS - steps)] and is 0 from
    the arrival on.  An event takes the session from NAVIGATING to ARRIVED
    precisely when the count satisfies the threshold after it and did not
    before it, so for the first time, and ARRIVED is entered from
    NAVIGATING only.  Ten clean steps do arrive.  All of this with the
    camera stream of [handleStart] arriving at any time. *)
Theorem C3_arrival_exactly_once :
  (forall events : list Event,
      let s := run initialSession events in
      (arrivals initialSession events <= 1)%nat
      /\ (arrivals initialSession events = 1%nat
          <-> IZR TOTAL_STEPS - ARRIVAL_THRESHOLD_STEPS <= IZR (steps s))
      /\ (navState s = ARRIVED
          -> IZR TOTAL_STEPS - ARRIVAL_THRESHOLD_STEPS <= IZR (steps s))
      /\ stepsRemaining s = Z.max 0 (TOTAL_STEPS - steps s)
      /\ (IZR TOTAL_STEPS - ARRIVAL_THRESHOLD_STEPS <= IZR (steps s)
          -> steps s = 10%Z /\ stepsRemaining s = 0%Z))
  /\ (forall (events : list Event) (e : Event),
         let s := run initialSession events in
         ((navState s = NAVIGATING /\ navState (dispatch s e) = ARRIVED)
          <-> (IZR (steps s) < IZR TOTAL_STEPS - ARRIVAL_THRESHOLD_STEPS
               /\ IZR TOTAL_STEPS - ARRIVAL_THRESHOLD_STEPS
                  <= IZR (steps (dispatch s e))))
         /\ (navState (dispatch s e) = ARRIVED -> navState s <> ARRIVED ->
             navState s = NAVIGATING))
  /\ (let events := [PermissionGranted; CalibrationDone] ++ motions (walk 10 1000) in
      navState (run initialSession events) = ARRIVED
      /\ arrivals initialSession events = 1%nat
      /\ stepsRemaining (run initialSession events) = 0%Z).
Proof.
  split; [| split].
  - intros events s.
    assert (HI : SessionInv s) by (apply run_inv, SessionInv_initial).
    pose proof HI as [Hb Ha].
    assert (Hc : arrivals initialSession events
                 = if (TOTAL_STEPS <=? steps s)%Z then 1%nat else 0%nat).
    { apply arrivals_count; [apply SessionInv_initial |].
      cbn [steps initialSession]. unfold TOTAL_STEPS. lia. }
    split; [| split; [| split; [| split]]].
    + rewrite Hc. destruct (_ <=? _)%Z; lia.
    + rewrite Hc, arrival_threshold_int.
      destruct (Z.leb_spec TOTAL_STEPS (steps s)); split; intros; (lia || congruence).
    + intros H. apply arrival_threshold_int, Ha, H.
    + reflexivity.
    + intros H. apply arrival_threshold_int in H.
      unfold stepsRemaining, TOTAL_STEPS in *. lia.
  - intros events e s.
    assert (HI : SessionInv s) by (apply run_inv, SessionInv_initial).
    pose proof (dispatch_inv s e HI) as [Hb' _].
    pose proof (dispatch_steps_mono s e HI) as Hm.
    split; [split |].
    + intros [Hn Ha].
      destruct (Z.eq_dec (steps (dispatch s e)) (steps s)) as [E | E].
      { pose proof (dispatch_unchanged s e E Ha). congruence. }
      pose proof (dispatch_changed s e E) as Hd.
      destruct (Z.leb_spec TOTAL_STEPS (steps (dispatch s e))) as [Hle | Hlt];
        [| congruence].
      split; [| apply arrival_threshold_int, Hle].
      apply Rnot_le_lt. intros H. apply arrival_threshold_int in H. lia.
    + intros [Hlt Hle]. apply arrival_threshold_int in Hle.
      assert (Hlt' : (steps s < TOTAL_STEPS)%Z).
      { apply Z.nle_gt. intros H. apply arrival_threshold_int in H. lra. }
      assert (E : steps (dispatch s e) <> steps s) by lia.
      split; [apply (dispatch_steps_change s e E) |].
      rewrite (dispatch_changed s e E).
      destruct (Z.leb_spec TOTAL_STEPS (steps (dispatch s e))); [reflexivity | lia].
    + intros H Hn. apply (dispatch_enters_arrived s e H Hn).
  - destruct ten_steps_arrive as (H1 & H2 & H3 & H4). repeat split; assumption.
Qed.

(** C3 at the run of ten clean steps after the calibration. *)
Lemma C3_arrival_exactly_once_witness :
  steps (run initialSession
             ([PermissionGranted; CalibrationDone] ++ motions (walk 10 1000)))
  = 10%Z
  /\ stepsRemaining (run initialSession
             ([PermissionGranted; CalibrationDone] ++ motions (walk 10 1000)))
     = 0%Z.
Proof.
  refine (proj2 (proj2 (proj2 (proj2
            (proj1 C3_arrival_exactly_once
               ([PermissionGranted; CalibrationDone] ++ motions (walk 10 1000))))))
            _).
  rewrite (proj1 (proj2 ten_steps_arrive)).
  unfold TOTAL_STEPS, ARRIVAL_THRESHOLD_STEPS. lra.
Defined.

(** C6: within a session the step count never decreases: the count after
    any further events is at least the count before them; a motion event
    adds nothing or one, a beacon event never lowers the count, and the
    other events leave it alone. *)
Theorem C6_step_count_monotone :
  forall events : list Event,
    let s := run initialSession events in
    (forall more : list Event, (steps s <= steps (run s more))%Z)
    /\ (forall e : Event, (steps s <= steps (dispatch s e))%Z)
    /\ (forall a now,
           steps (dispatch s (Motion a now)) = steps s
           \/ steps (dispatch s (Motion a now)) = (steps s + 1)%Z)
    /\ (forall bs, (steps s <= steps (dispatch s (Beacons bs)))%Z)
    /\ steps (dispatch s PermissionGranted) = steps s
    /\ steps (dispatch s CalibrationDone) = steps s.
Proof.
  intros events s.
  assert (HI : SessionInv s) by (apply run_inv, SessionInv_initial).
  split; [| split; [| split; [| split; [| split]]]].
  - intros more. apply run_steps_mono, HI.
  - intros e. apply dispatch_steps_mono, HI.
  - intros a now. cbn [dispatch]. rewrite afterRender_steps.
    destruct (stepDetectionEffect_steps s a now) as [-> | [Hn ->]]; [left; reflexivity |].
    destruct HI as [Hb _].
    destruct (Z.eq_dec (steps s) TOTAL_STEPS) as [E | E]; [left | right]; lia.
  - intros bs. apply (dispatch_steps_mono s (Beacons bs)), HI.
  - simpl. destruct (NavState_eqb _ _); reflexivity.
  - simpl. destruct (NavState_eqb _ _); reflexivity.
Qed.

(** C10: in every session the step count stays between 0 and
    [TOTAL_STEPS = 10]: a detected step stores [min (previous + 1) 10] and
    the one configured checkpoint snaps to 5; so [stepsRemaining] is
    [10 - steps] without ever needing the clamp at 0, and the count in
    ARRIVED is exactly 10. *)
Theorem C10_step_count_bounded :
  (forall events : list Event,
      let s := run initialSession events in
      (0 <= steps s <= TOTAL_STEPS)%Z
      /\ stepsRemaining s = (TOTAL_STEPS - steps s)%Z
      /\ (0 <= stepsRemaining s <= TOTAL_STEPS)%Z
      /\ (navState s = ARRIVED -> steps s = 10%Z))
  /\ (forall s a now,
         steps (stepDetectionEffect s a now) = steps s
         \/ steps (stepDetectionEffect s a now) = Z.min (steps s + 1) TOTAL_STEPS)
  /\ map step_checkpoint BEACON_CHECKPOINTS = [5%Z]
  /\ TOTAL_STEPS = 10%Z.
Proof.
  split; [| split; [| split]].
  - intros events s.
    assert (HI : SessionInv s) by (apply run_inv, SessionInv_initial).
    pose proof HI as [Hb Ha].
    rewrite (stepsRemaining_inv s HI).
    repeat split; try lia.
    intros H. apply Ha in H. unfold TOTAL_STEPS in *. lia.
  - intros s a now.
    destruct (stepDetectionEffect_steps s a now) as [H | [_ H]]; [left | right]; exact H.
  - reflexivity.
  - reflexivity.
Qed.

(** C10 at the run of ten clean steps after the calibration. *)
Lemma C10_step_count_bounded_witness :
  steps (run initialSession
             ([PermissionGranted; CalibrationDone] ++ motions (walk 10 1000)))
  = 10%Z.
Proof.
  refine (proj2 (proj2 (proj2
            (proj1 C10_step_count_bounded
               ([PermissionGranted; CalibrationDone] ++ motions (walk 10 1000)))))
            _).
  exact (proj1 ten_steps_arrive).
Defined.

End SessionClaims.

(* ================================================================== *)
(** * Checkpoint correction *)
(* ================================================================== *)

Section CheckpointFacts.
Import JsNum ARNavigation Props.

Lemma estimateDistance_unknown : BeaconScanner.estimateDistance 0 = -1.
Proof. unfold BeaconScanner.estimateDistance. rewrite eqb_refl. lra. Qed.

(** At the calibrated power the estimate is one metre. *)
Lemma estimateDistance_tx_power : BeaconScanner.estimateDistance (-59) = 1.
Proof.
  unfold BeaconScanner.estimateDistance, BeaconScanner.TX_POWER,
    BeaconScanner.ENVIRONMENTAL_FACTOR, Math_pow10.
  rewrite eqb_neq by lra.
  rewrite ltb_false by lra.
  replace ((-59 - -59) / (10 * 2.0)) with 0 by lra.
  apply Rpower_O. lra.
Qed.

Lemma handleAdvertisement_first (event : BeaconScanner.Advertisement) :
  BeaconScanner.handleAdvertisement event [] = [BeaconScanner.newBeacon event].
Proof. reflexivity. Qed.

Lemma correctFor_found (cps : list Checkpoint) (b : BeaconScanner.Beacon)
      (cp : Checkpoint) (n : Z) :
  find (nameMatches b) cps = Some cp ->
  correctFor cps n b
  = if ltb (BeaconScanner.distance b) (proximity_m cp)
    then Z.max n (step_checkpoint cp) else n.
Proof.
  intros H. unfold correctFor. rewrite H.
  destruct (ltb _ _); [apply snapTo_spec | reflexivity].
Qed.

(** The hallway checkpoint is the one found for a beacon of that name. *)
Lemma find_hallway (b : BeaconScanner.Beacon) :
  BeaconScanner.name b = Some "Memora-Hallway"%string ->
  find (nameMatches b) BEACON_CHECKPOINTS
  = Some {| name := "Memora-Hallway"; step_checkpoint := 5; proximity_m := 1.5 |}.
Proof.
  intros H. unfold BEACON_CHECKPOINTS. cbn [find].
  unfold nameMatches. rewrite H. reflexivity.
Qed.

(** A beacon event of one beacon in a navigating session. *)
Lemma dispatch_one_beacon_steps (s : Session) (b : BeaconScanner.Beacon) :
  navState s = NAVIGATING ->
  steps (dispatch s (Beacons [b])) = correctFor BEACON_CHECKPOINTS (steps s) b.
Proof.
  intros Hn. cbn [dispatch]. rewrite afterRender_steps.
  unfold beaconCorrectionEffect. rewrite Hn. reflexivity.
Qed.

(** C1, the code at the failing input: the first advertisement of the
    hallway beacon arrives with RSSI 0, so its distance is the sentinel -1;
    the correction effect of a navigating session with no step counted
    takes -1 for a distance below the radius 1.5 and sets the count to 5. *)
Theorem C1_unknown_distance_is_applied :
  let beacons := BeaconScanner.handleAdvertisement (hallwayAdvertisement 0) [] in
  map BeaconScanner.rssi beacons = [0]
  /\ map BeaconScanner.distance beacons = [-1]
  /\ navState navigatingSession = NAVIGATING
  /\ steps navigatingSession = 0%Z
  /\ steps (dispatch navigatingSession (Beacons beacons)) = 5%Z.
Proof.
  intros beacons. subst beacons. rewrite handleAdvertisement_first.
  split; [reflexivity |].
  split.
  { cbn [map BeaconScanner.newBeacon BeaconScanner.distance hallwayAdvertisement
           BeaconScanner.event_rssi].
    rewrite estimateDistance_unknown. reflexivity. }
  split; [reflexivity |]. split; [reflexivity |].
  rewrite dispatch_one_beacon_steps by reflexivity.
  rewrite (correctFor_found _ _ _ _
             (find_hallway (BeaconScanner.newBeacon (hallwayAdvertisement 0)) eq_refl)).
  cbn [BeaconScanner.newBeacon BeaconScanner.distance hallwayAdvertisement
         BeaconScanner.event_rssi proximity_m step_checkpoint].
  rewrite estimateDistance_unknown, ltb_true by lra. reflexivity.
Qed.



End CheckpointFacts.

(* ================================================================== *)
(** * The step detector: cycles and the lockout *)
(* ================================================================== *)

Section StepDetectorClaims.
Import JsNum ARNavigation Props.

(** A motion event inside the lockout changes nothing of the session. *)
Lemma dispatch_locked (s : Session) (a : option Vec3) (now : Z) :
  (now - lastStepTime s < STEP_LOCKOUT_MS)%Z -> dispatch s (Motion a now) = s.
Proof.
  intros H. cbn [dispatch]. rewrite stepDetectionEffect_locked by exact H.
  apply afterRender_same.
Qed.

(** The session after one clean cycle at [tr], [td]. *)
Lemma run_cycle_plain (s : Session) (rise drop : Vec3) (tr td : Z) :
  navState s = NAVIGATING -> (steps s < TOTAL_STEPS)%Z ->
  rises rise -> drops drop -> unlocked s tr -> unlocked s td ->
  run s (motions [(rise, tr); (drop, td)])
  = arrivalEffect {| navState := NAVIGATING; steps := (steps s + 1)%Z;
                     lastStepTime := td; isPotentialStep := false |}.
Proof.
  intros. apply (run_cycle s rise drop tr td []); try assumption. constructor.
Qed.

Lemma run_two_cycles_split (s : Session) (r1 d1 r2 d2 : Vec3) (t1 t2 t3 t4 : Z) :
  run s (motions [(r1, t1); (d1, t2); (r2, t3); (d2, t4)])
  = run (run s (motions [(r1, t1); (d1, t2)])) (motions [(r2, t3); (d2, t4)]).
Proof. reflexivity. Qed.

(** Two cycles, the second one wholly inside the lockout of the first. *)
Lemma run_second_cycle_locked (s : Session) (r1 d1 r2 d2 : Vec3) (t1 t2 t3 t4 : Z) :
  navState s = NAVIGATING -> (steps s < TOTAL_STEPS)%Z ->
  rises r1 -> drops d1 -> unlocked s t1 -> unlocked s t2 ->
  (t3 - t2 < STEP_LOCKOUT_MS)%Z -> (t4 - t2 < STEP_LOCKOUT_MS)%Z ->
  steps (run s (motions [(r1, t1); (d1, t2); (r2, t3); (d2, t4)])) = (steps s + 1)%Z.
Proof.
  intros Hn Hs Hr1 Hd1 Hu1 Hu2 H3 H4.
  rewrite run_two_cycles_split.
  rewrite (run_cycle_plain s r1 d1 t1 t2) by assumption.
  set (s1 := arrivalEffect _).
  assert (Hl : lastStepTime s1 = t2).
  { unfold s1, arrivalEffect. destruct (geb _ _); reflexivity. }
  assert (Hs1 : steps s1 = (steps s + 1)%Z) by apply arrivalEffect_steps.
  cbn [run motions map fold_left].
  rewrite (dispatch_locked s1) by (rewrite Hl; exact H3).
  rewrite (dispatch_locked s1) by (rewrite Hl; exact H4).
  exact Hs1.
Qed.

(** Two cycles, the second one starting after the lockout of the first. *)
Lemma run_second_cycle_unlocked (s : Session) (r1 d1 r2 d2 : Vec3) (t1 t2 t3 t4 : Z) :
  navState s = NAVIGATING -> (steps s + 2 <= TOTAL_STEPS)%Z ->
  rises r1 -> drops d1 -> rises r2 -> drops d2 ->
  unlocked s t1 -> unlocked s t2 ->
  (STEP_LOCKOUT_MS <= t3 - t2)%Z -> (t3 <= t4)%Z ->
  steps (run s (motions [(r1, t1); (d1, t2); (r2, t3); (d2, t4)])) = (steps s + 2)%Z.
Proof.
  intros Hn Hs Hr1 Hd1 Hr2 Hd2 Hu1 Hu2 H3 H4.
  rewrite run_two_cycles_split.
  rewrite (run_cycle_plain s r1 d1 t1 t2) by (assumption || lia).
  rewrite arrivalEffect_below by (cbn [steps]; lia).
  rewrite run_cycle_plain;
    try assumption; try reflexivity;
    try (cbn [steps]; lia); try (unfold unlocked; cbn [lastStepTime]; lia).
  rewrite arrivalEffect_steps. cbn [steps]. lia.
Qed.

(** The second cycle rises inside the lockout and drops after it: the rise
    is not seen, the drop meets an idle detector, one step is counted. *)
Lemma run_second_rise_locked :
  steps (run navigatingSession
             (motions [(riseSample, 1000); (restSample, 1100);
                       (riseSample, 1300); (restSample, 1600)])%Z) = 1%Z.
Proof.
  rewrite run_two_cycles_split, navigatingSession_eq.
  rewrite (run_cycle_plain _ riseSample restSample 1000 1100);
    try reflexivity; try exact rises_riseSample; try exact drops_restSample;
    try (unfold unlocked, STEP_LOCKOUT_MS; cbn [lastStepTime]; lia);
    try (cbn [steps]; unfold TOTAL_STEPS; lia).
  rewrite arrivalEffect_below by (cbn [steps]; unfold TOTAL_STEPS; lia).
  cbn [run motions map fold_left].
  rewrite (dispatch_locked _ (Some riseSample) 1300)
    by (cbn [lastStepTime]; unfold STEP_LOCKOUT_MS; lia).
  cbn [dispatch].
  rewrite stepDetectionEffect_idle; [rewrite afterRender_same; reflexivity | | reflexivity].
  pose proof drops_restSample as Hd. pose proof lower_below_upper.
  unfold rises, drops in *. lra.
Qed.

(** C4 (as stated), refuted: two rise/drop cycles whose confirmations are
    more than the lockout apart do not always count two steps.  Here the
    first cycle is confirmed at 1100 ms and the second would be confirmed
    at 1600 ms, 500 ms later, but its rise at 1300 ms fell into the lockout
    and the count is 1. *)
Lemma C4_late_drop_after_locked_rise :
  ~ (forall (s : Session) (r1 d1 r2 d2 : Vec3) (t1 t2 t3 t4 : Z),
        navState s = NAVIGATING -> (steps s + 2 <= TOTAL_STEPS)%Z ->
        isPotentialStep s = false ->
        rises r1 -> drops d1 -> rises r2 -> drops d2 ->
        unlocked s t1 -> (t1 <= t2 <= t3)%Z -> (t3 <= t4)%Z ->
        (STEP_LOCKOUT_MS < t4 - t2)%Z ->
        steps (run s (motions [(r1, t1); (d1, t2); (r2, t3); (d2, t4)]))
        = (steps s + 2)%Z).
Proof.
  intros H.
  specialize (H navigatingSession riseSample restSample riseSample restSample
                1000 1100 1300 1600)%Z.
  rewrite run_second_rise_locked in H.
  assert (Habs : 1%Z = (steps navigatingSession + 2)%Z).
  { apply H; try reflexivity;
      try exact rises_riseSample; try exact drops_restSample;
      try (rewrite navigatingSession_eq; cbn [steps]; unfold TOTAL_STEPS; lia);
      try (rewrite navigatingSession_eq; unfold unlocked, STEP_LOCKOUT_MS;
           cbn [lastStepTime]; lia);
      try (unfold STEP_LOCKOUT_MS; lia). }
  rewrite navigatingSession_eq in Habs. cbn [steps] in Habs. lia.
Qed.

(** C4 (amended): in a navigating session with room for the steps and
    outside the lockout,
    - a rise above [STEP_THRESHOLD], any samples that stay at or above
      [0.7 * STEP_THRESHOLD], and a drop below it add exactly one step;
    - a second cycle whose samples all arrive less than 400 ms after the
      first confirmation adds nothing, so the two cycles count one step;
    - a second cycle whose rise arrives 400 ms or more after the first
      confirmation is counted, so the two cycles count two steps;
    - a motion sample that arrives during the lockout changes nothing of
      the session;
    - samples that never drop below the lower threshold leave the count as
      it is. *)
Theorem C4_step_detector_cycles :
  (forall (s : Session) (rise drop : Vec3) (tr td : Z) (mids : list (Vec3 * Z)),
      navState s = NAVIGATING -> (steps s < TOTAL_STEPS)%Z ->
      rises rise -> Forall (fun p => ~ drops (fst p)) mids -> drops drop ->
      unlocked s tr -> unlocked s td ->
      steps (run s (motions ((rise, tr) :: mids ++ [(drop, td)])))
      = (steps s + 1)%Z)
  /\ (forall (s : Session) (r1 d1 r2 d2 : Vec3) (t1 t2 t3 t4 : Z),
         navState s = NAVIGATING -> (steps s < TOTAL_STEPS)%Z ->
         rises r1 -> drops d1 -> rises r2 -> drops d2 ->
         unlocked s t1 -> unlocked s t2 ->
         (t3 - t2 < STEP_LOCKOUT_MS)%Z -> (t4 - t2 < STEP_LOCKOUT_MS)%Z ->
         steps (run s (motions [(r1, t1); (d1, t2); (r2, t3); (d2, t4)]))
         = (steps s + 1)%Z)
  /\ (forall (s : Session) (r1 d1 r2 d2 : Vec3) (t1 t2 t3 t4 : Z),
         navState s = NAVIGATING -> (steps s + 2 <= TOTAL_STEPS)%Z ->
         rises r1 -> drops d1 -> rises r2 -> drops d2 ->
         unlocked s t1 -> unlocked s t2 ->
         (STEP_LOCKOUT_MS <= t3 - t2)%Z -> (t3 <= t4)%Z ->
         steps (run s (motions [(r1, t1); (d1, t2); (r2, t3); (d2, t4)]))
         = (steps s + 2)%Z)
  /\ (forall (s : Session) (a : option Vec3) (now : Z),
         (now - lastStepTime s < STEP_LOCKOUT_MS)%Z ->
         dispatch s (Motion a now) = s)
  /\ (forall (s : Session) (samples : list (Vec3 * Z)),
         Forall (fun p => ~ drops (fst p)) samples ->
         steps (run s (motions samples)) = steps s).
Proof.
  split; [| split; [| split; [| split]]].
  - intros. apply run_cycle_steps; assumption.
  - intros. apply run_second_cycle_locked; assumption.
  - intros. apply run_second_cycle_unlocked; assumption.
  - intros. apply dispatch_locked; assumption.
  - intros. apply run_no_drop; assumption.
Qed.

(** C4 at two clean cycles of a fresh navigating session, the second rise
    500 ms after the first confirmation: two steps. *)
Lemma C4_step_detector_cycles_witness :
  steps (run navigatingSession
             (motions [(riseSample, 1000); (restSample, 1100);
                       (riseSample, 1600); (restSample, 1700)])%Z) = 2%Z.
Proof.
  refine (proj1 (proj2 (proj2 C4_step_detector_cycles))
            navigatingSession riseSample restSample riseSample restSample
            1000 1100 1600 1700 _ _ _ _ _ _ _ _ _ _)%Z.
  - reflexivity.
  - rewrite navigatingSession_eq. cbn [steps]. unfold TOTAL_STEPS. lia.
  - exact rises_riseSample.
  - exact drops_restSample.
  - exact rises_riseSample.
  - exact drops_restSample.
  - rewrite navigatingSession_eq. unfold unlocked, STEP_LOCKOUT_MS.
    cbn [lastStepTime]. lia.
  - rewrite navigatingSession_eq. unfold unlocked, STEP_LOCKOUT_MS.
    cbn [lastStepTime]. lia.
  - unfold STEP_LOCKOUT_MS. lia.
  - lia.
Defined.

End StepDetectorClaims.

(* ================================================================== *)
(** * The calibration modal *)
(* ================================================================== *)

Section CalibrationFacts.
Import JsNum CalibrationModal CalProps.

Lemma elem_of_allSegments (k : Z) : k ∈ allSegments <-> (0 <= k < 12)%Z.
Proof.
  unfold allSegments, TOTAL_SEGMENTS.
  rewrite elem_of_list_to_set, elem_of_seqZ. lia.
Qed.

Lemma size_allSegments : size allSegments = 12%nat.
Proof. reflexivity. Qed.

(** A heading in [0, 360) falls into one of the twelve sectors. *)
Lemma segmentOf_range (h : R) : 0 <= h < 360 -> (0 <= segmentOf h < 12)%Z.
Proof.
  intros Hh. unfold segmentOf, Math_floor, TOTAL_SEGMENTS.
  replace (h / (360 / 12)) with (h / 30) by lra.
  pose proof (Zfloor_bound (h / 30)) as [H1 H2].
  split.
  - assert (H : IZR (-1) < IZR (Zfloor (h / 30))) by lra.
    apply lt_IZR in H. lia.
  - assert (H : IZR (Zfloor (h / 30)) < IZR 12) by lra.
    apply lt_IZR in H. exact H.
Qed.

(** The sector of a heading is the one whose 30 degrees contain it. *)
Lemma segmentOf_spec (h : R) (k : Z) :
  30 * IZR k <= h < 30 * IZR k + 30 -> segmentOf h = k.
Proof.
  intros Hh. unfold segmentOf, Math_floor, TOTAL_SEGMENTS.
  replace (h / (360 / 12)) with (h / 30) by lra.
  apply Zfloor_eq. lra.
Qed.

Lemma isComplete_size (m : Modal) :
  isComplete m = true <-> (12 <= size (coveredSegments m))%nat.
Proof.
  unfold isComplete, progress, TOTAL_SEGMENTS. rewrite geb_spec.
  split; intros H.
  - assert (H' : INR 12 <= INR (size (coveredSegments m))).
    { replace (INR 12) with 12 by (simpl; lra). lra. }
    apply INR_le in H'. exact H'.
  - apply le_INR in H. replace (INR 12) with 12 in H by (simpl; lra). lra.
Qed.

(** A coverage inside the twelve sectors is complete exactly when it is
    all of them. *)
Lemma isComplete_all (m : Modal) :
  coveredSegments m ⊆ allSegments ->
  (isComplete m = true <-> coveredSegments m = allSegments).
Proof.
  intros Hsub. rewrite isComplete_size. split; intros H.
  - apply set_subseteq_size_eq; [exact Hsub |].
    rewrite size_allSegments. exact H.
  - rewrite H, size_allSegments. lia.
Qed.

Lemma headingEffect_covered (h : option R) (m : Modal) :
  coveredSegments m ⊆ coveredSegments (headingEffect h m).
Proof. destruct h; simpl; set_solver. Qed.

(** The calibration does not become incomplete again. *)
Lemma headingEffect_complete (h : option R) (m : Modal) :
  isComplete m = true -> isComplete (headingEffect h m) = true.
Proof.
  rewrite !isComplete_size. intros H.
  pose proof (subseteq_size _ _ (headingEffect_covered h m)). lia.
Qed.

Lemma fireTimers_covered (now : Z) (m : Modal) :
  coveredSegments (fireTimers now m) = coveredSegments m.
Proof.
  unfold fireTimers. destruct (due (skipTimer m) now); simpl;
    destruct (due _ now); reflexivity.
Qed.

Lemma react_covered (now : Z) (i : Input) (m : Modal) :
  coveredSegments (react now i m)
  = match i with
    | HeadingChanged (Some h) => {[ segmentOf h ]} ∪ coveredSegments m
    | _ => coveredSegments m
    end.
Proof.
  destruct i as [[h |] | | |]; simpl.
  - destruct (Bool.eqb _ _); reflexivity.
  - rewrite Bool.eqb_reflx. reflexivity.
  - reflexivity.
  - destruct (skipAvailable m); reflexivity.
  - reflexivity.
Qed.

(** Every input keeps the coverage inside the twelve sectors. *)
Lemma step_covered_sub (m : Modal) (e : Z * Input) :
  headingInRange (snd e) ->
  coveredSegments m ⊆ allSegments ->
  coveredSegments (step m e) ⊆ allSegments.
Proof.
  destruct e as [now i]. simpl. intros Hi Hsub.
  destruct (mounted (fireTimers now m)).
  - rewrite react_covered, fireTimers_covered.
    destruct i as [[h |] | | |]; try exact Hsub.
    simpl in Hi. apply segmentOf_range in Hi.
    apply union_least; [| exact Hsub].
    apply singleton_subseteq_l, elem_of_allSegments, Hi.
  - rewrite fireTimers_covered. exact Hsub.
Qed.

Lemma run_covered_sub (trace : list (Z * Input)) (m : Modal) :
  Forall (fun e => headingInRange (snd e)) trace ->
  coveredSegments m ⊆ allSegments ->
  coveredSegments (run m trace) ⊆ allSegments.
Proof.
  revert m. induction trace as [| e trace IH]; intros m Hf Hsub; [exact Hsub |].
  inversion Hf; subst. simpl. apply IH; [assumption |].
  apply step_covered_sub; assumption.
Qed.

Lemma isComplete_ext (a b : Modal) :
  coveredSegments a = coveredSegments b -> isComplete a = isComplete b.
Proof. intros H. unfold isComplete, progress. rewrite H. reflexivity. Qed.

Lemma fireTimers_complete (now : Z) (m : Modal) :
  isComplete (fireTimers now m) = isComplete m.
Proof. apply isComplete_ext, fireTimers_covered. Qed.

(** An unmounted modal with no timer left reacts to nothing. *)
Lemma step_unmounted (m : Modal) (e : Z * Input) :
  mounted m = false -> skipTimer m = None -> completeTimer m = None ->
  step m e = m.
Proof.
  intros Hm Hs Hc. destruct e as [now i]. unfold step, fireTimers.
  rewrite Hs. cbn [due]. rewrite Hc. cbn [due]. rewrite Hm. reflexivity.
Qed.

Lemma run_unmounted (trace : list (Z * Input)) (m : Modal) :
  mounted m = false -> skipTimer m = None -> completeTimer m = None ->
  run m trace = m.
Proof.
  intros Hm Hs Hc. induction trace as [| e trace IH]; [reflexivity |].
  simpl. rewrite step_unmounted by assumption. exact IH.
Qed.

Lemma ModalInv_mount (now : Z) : ModalInv (mount now).
Proof.
  unfold ModalInv. simpl. split; [reflexivity |].
  intros H. apply isComplete_size in H.
  cbn [mount coveredSegments] in H. rewrite size_empty in H. lia.
Qed.

Lemma ModalInv_callOnComplete (m : Modal) :
  completions m = 0%nat -> ModalInv (callOnComplete m).
Proof. intros H. unfold ModalInv. simpl. rewrite H. repeat split. Qed.

Lemma ModalInv_completionEffect (now : Z) (m : Modal) :
  mounted m = true -> completions m = 0%nat ->
  ModalInv (completionEffect now m).
Proof.
  intros Hm Hc. unfold ModalInv. simpl. rewrite Hm. split; [exact Hc |].
  intros H.
  rewrite (isComplete_ext (completionEffect now m) m) in H by reflexivity.
  rewrite H. eexists. reflexivity.
Qed.

(** The timers of a mounted modal: either the completion timer runs and
    unmounts it, or it stays mounted with the same coverage and the same
    completion timer. *)
Lemma fireTimers_cases (now : Z) (m : Modal) :
  mounted m = true -> completions m = 0%nat ->
  (due (completeTimer m) now = true
   /\ fireTimers now m
      = callOnComplete (if due (skipTimer m) now
                        then {| coveredSegments := coveredSegments m;
                                showSkipButton := true;
                                skipTimer := None;
                                completeTimer := completeTimer m;
                                completions := completions m;
                                mounted := mounted m |}
                        else m))
  \/ (due (completeTimer m) now = false
      /\ mounted (fireTimers now m) = true
      /\ completions (fireTimers now m) = 0%nat
      /\ completeTimer (fireTimers now m) = completeTimer m
      /\ coveredSegments (fireTimers now m) = coveredSegments m).
Proof.
  intros Hm Hc. unfold fireTimers.
  destruct (due (skipTimer m) now); cbn [completeTimer];
    destruct (due (completeTimer m) now) eqn:E;
    try (left; split; reflexivity);
    right; repeat split; assumption.
Qed.

Lemma step_inv (m : Modal) (e : Z * Input) : ModalInv m -> ModalInv (step m e).
Proof.
  intros HI. destruct (mounted m) eqn:Hm.
  - unfold ModalInv in HI. rewrite Hm in HI. destruct HI as [Hc Ht].
    destruct e as [now i]. unfold step.
    destruct (fireTimers_cases now m Hm Hc) as [[_ ->] | (_ & Hm1 & Hc1 & Ht1 & Hcov)].
    + cbn [callOnComplete mounted].
      apply ModalInv_callOnComplete. destruct (due _ now); exact Hc.
    + rewrite Hm1. set (m1 := fireTimers now m) in *.
      assert (Ht' : isComplete m1 = true -> exists d, completeTimer m1 = Some d).
      { intros H. rewrite Ht1. apply Ht.
        rewrite <- H. symmetry. apply isComplete_ext, Hcov. }
      destruct i as [h | | |]; cbn [react].
      * destruct (Bool.eqb (isComplete (headingEffect h m1)) (isComplete m1)) eqn:E.
        -- apply Bool.eqb_prop in E. unfold ModalInv.
           destruct h; cbn [headingEffect mounted completions completeTimer];
             rewrite Hm1; (split; [exact Hc1 |]); intros H; apply Ht';
             rewrite <- E; exact H.
        -- apply ModalInv_completionEffect; destruct h; assumption.
      * apply ModalInv_completionEffect; assumption.
      * destruct (skipAvailable m1).
        -- apply ModalInv_callOnComplete, Hc1.
        -- unfold ModalInv. rewrite Hm1. split; assumption.
      * unfold ModalInv. rewrite Hm1. split; assumption.
  - unfold ModalInv in HI. rewrite Hm in HI. destruct HI as (Hc & Hs & Ht).
    rewrite step_unmounted by assumption.
    unfold ModalInv. rewrite Hm. repeat split; assumption.
Qed.

Lemma run_modal_inv (trace : list (Z * Input)) (m : Modal) :
  ModalInv m -> ModalInv (run m trace).
Proof.
  revert m. induction trace as [| e trace IH]; intros m HI; [exact HI |].
  simpl. apply IH, step_inv, HI.
Qed.


Lemma run_modal_app (m : Modal) (l1 l2 : list (Z * Input)) :
  run m (l1 ++ l2) = run (run m l1) l2.
Proof. unfold run. apply fold_left_app. Qed.

(** A complete calibration whose timer runs calls [onComplete] once: the
    heading samples that keep arriving start no second timer, and whatever
    comes after the call finds the modal unmounted. *)
Lemma completion_fires (hs : list (Z * option R)) (m : Modal) (d now : Z)
      (more : list (Z * Input)) :
  mounted m = true -> completions m = 0%nat ->
  isComplete m = true -> completeTimer m = Some d -> (d <= now)%Z ->
  completions (run m (headings hs ++ (now, Tick) :: more)) = 1%nat.
Proof.
  revert m. induction hs as [| [t h] hs IH]; intros m Hm Hc Hk Ht Hd.
  - cbn [headings map app run fold_left]. fold (run (step m (now, Tick)) more).
    unfold step.
    destruct (fireTimers_cases now m Hm Hc) as [[_ ->] | (Hn & _)].
    + cbn [callOnComplete mounted].
      rewrite run_unmounted by reflexivity.
      destruct (due _ now); cbn [completions callOnComplete]; rewrite Hc; reflexivity.
    + rewrite Ht in Hn. cbn [due] in Hn. apply Z.leb_gt in Hn. lia.
  - change (headings ((t, h) :: hs) ++ (now, Tick) :: more)
      with ((t, HeadingChanged h) :: (headings hs ++ (now, Tick) :: more)).
    cbn [run fold_left].
    fold (run (step m (t, HeadingChanged h)) (headings hs ++ (now, Tick) :: more)).
    unfold step.
    destruct (fireTimers_cases t m Hm Hc) as [[_ ->] | (_ & Hm1 & Hc1 & Ht1 & Hcov)].
    + cbn [callOnComplete mounted].
      rewrite run_unmounted by reflexivity.
      destruct (due _ t); cbn [completions callOnComplete]; rewrite Hc; reflexivity.
    + rewrite Hm1. set (m1 := fireTimers t m) in *.
      assert (Hk1 : isComplete m1 = true).
      { rewrite <- Hk. apply isComplete_ext, Hcov. }
      cbn [react].
      rewrite (headingEffect_complete h m1 Hk1), Hk1. cbn [Bool.eqb].
      apply IH.
      * destruct h; exact Hm1.
      * destruct h; exact Hc1.
      * apply headingEffect_complete, Hk1.
      * destruct h; cbn [headingEffect completeTimer]; rewrite Ht1; exact Ht.
      * exact Hd.
Qed.





Lemma step_heading_quiet (h : R) (now : Z) (m : Modal) :
  mounted m = true ->
  due (skipTimer m) now = false -> due (completeTimer m) now = false ->
  step m (now, HeadingChanged (Some h))
  = if Bool.eqb (isComplete (headingEffect (Some h) m)) (isComplete m)
    then headingEffect (Some h) m
    else completionEffect now (headingEffect (Some h) m).
Proof.
  intros Hm Hs Hc. unfold step, fireTimers. rewrite Hs, Hc, Hm. reflexivity.
Qed.

Lemma run_headingsAt_cons (h : R) (hs : list R) (now : Z) (m : Modal) :
  run m (headingsAt now (h :: hs))
  = run (step m (now, HeadingChanged (Some h))) (headingsAt now hs).
Proof. reflexivity. Qed.

Lemma new_timer_not_due (now : Z) :
  due (Some (now + COMPLETE_DELAY_MS)%Z) now = false.
Proof. cbn [due]. apply Z.leb_gt. unfold COMPLETE_DELAY_MS. lia. Qed.

(** Samples that arrive while no timer is due leave the timer of a complete
    calibration alone. *)
Lemma run_headingsAt_timer (hs : list R) (now : Z) (m : Modal) :
  mounted m = true -> isComplete m = true ->
  due (skipTimer m) now = false -> due (completeTimer m) now = false ->
  completeTimer (run m (headingsAt now hs)) = completeTimer m.
Proof.
  revert m. induction hs as [| h hs IH]; intros m Hm Hk Hs Hc; [reflexivity |].
  rewrite run_headingsAt_cons, step_heading_quiet by assumption.
  rewrite (headingEffect_complete (Some h) m Hk), Hk. cbn [Bool.eqb].
  rewrite IH; try assumption; [reflexivity |].
  apply headingEffect_complete, Hk.
Qed.

(** Heading samples that all arrive at a time at which no timer is due:
    the modal stays mounted, the sectors of the samples are added, and a
    calibration that becomes complete has its timer set to 1500 ms later. *)
Lemma run_headingsAt (hs : list R) (now : Z) (m : Modal) :
  mounted m = true ->
  due (skipTimer m) now = false -> due (completeTimer m) now = false ->
  mounted (run m (headingsAt now hs)) = true
  /\ completions (run m (headingsAt now hs)) = completions m
  /\ coveredSegments (run m (headingsAt now hs))
     = list_to_set (map segmentOf hs) ∪ coveredSegments m
  /\ (isComplete m = false -> isComplete (run m (headingsAt now hs)) = true ->
      completeTimer (run m (headingsAt now hs)) = Some (now + COMPLETE_DELAY_MS)%Z).
Proof.
  revert m. induction hs as [| h hs IH]; intros m Hm Hs Hc.
  - cbn [headingsAt headings map run fold_left].
    split; [exact Hm |]. split; [reflexivity |].
    split; [rewrite list_to_set_nil, (left_id_L ∅ (∪)); reflexivity |].
    intros H1 H2. congruence.
  - rewrite run_headingsAt_cons, step_heading_quiet by assumption.
    set (m1 := headingEffect (Some h) m).
    assert (Hcov : forall X : gset Z,
               list_to_set (map segmentOf hs) ∪ ({[ segmentOf h ]} ∪ X)
               = list_to_set (map segmentOf (h :: hs)) ∪ X).
    { intros X. cbn [map]. rewrite list_to_set_cons.
      rewrite (comm_L (∪) {[ segmentOf h ]} (list_to_set (map segmentOf hs))).
      rewrite <- (assoc_L (∪)). reflexivity. }
    destruct (Bool.eqb (isComplete m1) (isComplete m)) eqn:E.
    + apply Bool.eqb_prop in E.
      destruct (IH m1 Hm Hs Hc) as (H1 & H2 & H3 & H4).
      split; [exact H1 |]. split; [exact H2 |].
      split; [rewrite H3; apply Hcov |].
      intros Hk. apply H4. rewrite E. exact Hk.
    + assert (Hc2 : due (completeTimer (completionEffect now m1)) now = false).
      { cbn [completionEffect completeTimer].
        destruct (isComplete m1); [apply new_timer_not_due | reflexivity]. }
      destruct (IH (completionEffect now m1) Hm Hs Hc2) as (H1 & H2 & H3 & _).
      split; [exact H1 |]. split; [exact H2 |].
      split; [rewrite H3; apply Hcov |].
      intros Hk _.
      assert (Hk1 : isComplete m1 = true).
      { destruct (isComplete m1); [reflexivity |]. rewrite Hk in E. discriminate. }
      rewrite run_headingsAt_timer; try assumption.
      cbn [completionEffect completeTimer]. rewrite Hk1. reflexivity.
Qed.

Lemma segments_of_midpoints : map segmentOf sectorMidpoints = seqZ 0 12.
Proof.
  unfold sectorMidpoints. cbn [map].
  rewrite (segmentOf_spec 15 0), (segmentOf_spec 45 1), (segmentOf_spec 75 2),
    (segmentOf_spec 105 3), (segmentOf_spec 135 4), (segmentOf_spec 165 5),
    (segmentOf_spec 195 6), (segmentOf_spec 225 7), (segmentOf_spec 255 8),
    (segmentOf_spec 285 9), (segmentOf_spec 315 10), (segmentOf_spec 345 11)
    by lra.
  reflexivity.
Qed.

(** The ritual carried out: a heading in each sector, then more headings;
    the progress is 1 and [onComplete] is called once, 1500 ms after the
    last sector was seen. *)
Lemma calibration_ritual :
  let m := run (mount 0) (headingsAt 100 sectorMidpoints) in
  coveredSegments m = allSegments
  /\ progress m = 1
  /\ mounted m = true /\ completions m = 0%nat
  /\ completions (run m (headings [(200%Z, Some 15); (900%Z, Some 200)]
                          ++ (1600%Z, Tick) :: headings [(1700%Z, Some 15)]))
     = 1%nat.
Proof.
  intros m.
  destruct (run_headingsAt sectorMidpoints 100 (mount 0))
    as (Hm & Hc & Hcov & Ht); try reflexivity.
  fold m in Hm, Hc, Hcov, Ht.
  rewrite segments_of_midpoints in Hcov.
  assert (Hall : coveredSegments m = allSegments).
  { rewrite Hcov. cbn [mount coveredSegments]. unfold allSegments, TOTAL_SEGMENTS.
    apply (right_id_L ∅ (∪)). }
  assert (Hk : isComplete m = true).
  { apply isComplete_size. rewrite Hall, size_allSegments. lia. }
  split; [exact Hall |].
  split; [unfold progress; rewrite Hall, size_allSegments; unfold TOTAL_SEGMENTS;
          simpl; lra |].
  split; [exact Hm |]. split; [exact Hc |].
  apply (completion_fires _ m (100 + COMPLETE_DELAY_MS)%Z); try assumption.
  - apply Ht; [| exact Hk].
    destruct (isComplete (mount 0)) eqn:E; [| reflexivity].
    apply isComplete_size in E. cbn [mount coveredSegments] in E.
    rewrite size_empty in E. lia.
  - unfold COMPLETE_DELAY_MS. lia.
Qed.

End CalibrationFacts.

Section CalibrationClaims.
Import JsNum CalibrationModal CalProps.






End CalibrationClaims.

(* ================================================================== *)
(** * The heading filter *)
(* ================================================================== *)

Section Atan2Facts.
Import JsNum.

(** The angle of a point does not change when the point is moved along its
    ray. *)
Lemma Math_atan2_scale (y x k : R) :
  0 < k -> Math_atan2 (y / k) (x / k) = Math_atan2 y x.
Proof.
  intros Hk.
  assert (Hik : 0 < / k) by (apply Rinv_0_lt_compat, Hk).
  assert (Hq : x <> 0 -> y / k / (x / k) = y / x) by (intros; field; lra).
  unfold Math_atan2.
  destruct (Rlt_dec 0 x) as [Hx | Hx].
  - destruct (Rlt_dec 0 (x / k)) as [_ | Hn]; [rewrite Hq by lra; reflexivity |].
    exfalso. apply Hn. unfold Rdiv. nra.
  - destruct (Rlt_dec 0 (x / k)) as [Hp | _]; [exfalso; unfold Rdiv in Hp; nra |].
    destruct (Rlt_dec x 0) as [Hx' | Hx'].
    + destruct (Rlt_dec (x / k) 0) as [_ | Hn]; [| exfalso; apply Hn; unfold Rdiv; nra].
      rewrite Hq by lra.
      destruct (Rle_dec 0 y) as [Hy | Hy];
        destruct (Rle_dec 0 (y / k)) as [Hy' | Hy']; try reflexivity; exfalso.
      * apply Hy'. unfold Rdiv. nra.
      * unfold Rdiv in Hy'. nra.
    + destruct (Rlt_dec (x / k) 0) as [Hp | _]; [exfalso; unfold Rdiv in Hp; nra |].
      destruct (Rlt_dec 0 y) as [Hy | Hy].
      * destruct (Rlt_dec 0 (y / k)) as [_ | Hn]; [reflexivity |].
        exfalso. apply Hn. unfold Rdiv. nra.
      * destruct (Rlt_dec 0 (y / k)) as [Hp | _]; [exfalso; unfold Rdiv in Hp; nra |].
        destruct (Rlt_dec y 0) as [Hy' | Hy'].
        -- destruct (Rlt_dec (y / k) 0) as [_ | Hn]; [reflexivity |].
           exfalso. apply Hn. unfold Rdiv. nra.
        -- destruct (Rlt_dec (y / k) 0) as [Hp | _]; [| reflexivity].
           exfalso. unfold Rdiv in Hp. nra.
Qed.

(** The angle of the point at angle [phi] on the unit circle is [phi]. *)
Lemma Math_atan2_polar (phi : R) :
  - PI < phi <= PI -> Math_atan2 (sin phi) (cos phi) = phi.
Proof.
  intros [Hl Hu]. pose proof PI_RGT_0 as Hpi. unfold Math_atan2.
  destruct (Rlt_le_dec phi (- (PI / 2))) as [H1 | H1].
  - (* third quadrant *)
    assert (Hc : cos phi < 0).
    { rewrite <- cos_neg. apply cos_lt_0; lra. }
    assert (Hs : sin phi < 0) by (apply sin_lt_0_var; lra).
    destruct (Rlt_dec 0 (cos phi)); [lra |].
    destruct (Rlt_dec (cos phi) 0); [| lra].
    destruct (Rle_dec 0 (sin phi)); [lra |].
    assert (Ht : sin phi / cos phi = tan (phi + PI)).
    { unfold tan. rewrite neg_sin, neg_cos. field. lra. }
    rewrite Ht, atan_tan by lra. lra.
  - destruct H1 as [H1 | H1].
    + destruct (Rlt_le_dec phi (PI / 2)) as [H2 | H2].
      * (* right half plane *)
        assert (Hc : 0 < cos phi) by (apply cos_gt_0; lra).
        destruct (Rlt_dec 0 (cos phi)); [| lra].
        fold (tan phi). apply atan_tan. lra.
      * destruct H2 as [H2 | H2].
        -- (* second quadrant *)
           assert (Hc : cos phi < 0) by (apply cos_lt_0; lra).
           assert (Hs : 0 <= sin phi) by (apply sin_ge_0; lra).
           destruct (Rlt_dec 0 (cos phi)); [lra |].
           destruct (Rlt_dec (cos phi) 0); [| lra].
           destruct (Rle_dec 0 (sin phi)); [| lra].
           assert (Ht : sin phi / cos phi = tan (phi - PI)).
           { unfold tan.
             replace (sin phi) with (- sin (phi - PI))
               by (rewrite <- neg_sin; f_equal; lra).
             replace (cos phi) with (- cos (phi - PI))
               by (rewrite <- neg_cos; f_equal; lra).
             assert (0 < cos (phi - PI)) by (apply cos_gt_0; lra).
             field. lra. }
           rewrite Ht, atan_tan by lra. lra.
        -- (* straight up *)
           rewrite <- H2, cos_PI2, sin_PI2.
           destruct (Rlt_dec 0 0); [lra |].
           destruct (Rlt_dec 0 1); [reflexivity | lra].
    + (* straight down *)
      rewrite <- H1, cos_neg, sin_neg, cos_PI2, sin_PI2.
      destruct (Rlt_dec 0 0); [lra |].
      destruct (Rlt_dec 0 (- (1))); [lra |].
      destruct (Rlt_dec (- (1)) 0); [reflexivity | lra].
Qed.

End Atan2Facts.

Section HeadingFilterFacts.
Import JsNum HeadingFilter HeadingProps.

Lemma fold_plus_acc (f : R -> R) (l : list R) (acc : R) :
  fold_left (fun s a => s + f a) l acc
  = acc + fold_left (fun s a => s + f a) l 0.
Proof.
  revert acc. induction l as [| a l IH]; intros acc; simpl; [lra |].
  rewrite (IH (acc + f a)), (IH (0 + f a)). lra.
Qed.

Lemma fold_plus_repeat (f : R -> R) (h : R) (n : nat) :
  fold_left (fun s a => s + f a) (repeat h n) 0 = INR n * f h.
Proof.
  induction n as [| n IH]; [simpl; lra |].
  cbn [repeat fold_left]. rewrite fold_plus_acc, IH, S_INR. lra.
Qed.

Lemma INR_length_pos (A : Type) (l : list A) : l <> [] -> 0 < INR (length l).
Proof.
  intros H. destruct l as [| a l]; [congruence |].
  cbn [length]. rewrite S_INR. pose proof (pos_INR (length l)). lra.
Qed.

Lemma lastAvg_repeat (h : R) (n : nat) : (1 <= n)%nat -> lastAvg (repeat h n) = h.
Proof.
  intros Hn. unfold lastAvg.
  rewrite (fold_plus_repeat (fun a => a)), repeat_length.
  assert (0 < INR n) by (apply lt_0_INR; lia).
  field. lra.
Qed.

Lemma lastAvg_singleton (a : R) : lastAvg [a] = a.
Proof. apply (lastAvg_repeat a 1). lia. Qed.

(** On a buffer that is not empty the output is the circular mean. *)
Lemma averageAngle_circularMean (buf : list R) :
  buf <> [] -> averageAngle buf = circularMean buf.
Proof.
  intros H. unfold averageAngle, circularMean.
  rewrite Math_atan2_scale by (apply INR_length_pos, H). reflexivity.
Qed.

(** The angle, in degrees, of the unit vector of a heading in [0, 360). *)
Lemma unit_vector_angle (h : R) :
  0 <= h < 360 ->
  let deg := Math_atan2 (sin (h * PI / 180)) (cos (h * PI / 180)) * 180 / PI in
  (if ltb deg 0 then deg + 360 else deg) = h.
Proof.
  intros [H0 H360] deg. subst deg. pose proof PI_RGT_0 as Hpi.
  set (theta := h * PI / 180).
  assert (Hth : h = theta * 180 / PI) by (unfold theta; field; lra).
  assert (Ht0 : 0 <= theta) by (unfold theta; apply Rmult_le_pos; [nra | lra]).
  assert (Ht2 : theta < 2 * PI) by (unfold theta; nra).
  destruct (Rle_lt_dec theta PI) as [Hle | Hgt].
  - rewrite Math_atan2_polar by lra.
    rewrite <- Hth. rewrite ltb_false by lra. reflexivity.
  - assert (Hs : sin theta = sin (theta - 2 * PI)).
    { rewrite sin_minus, sin_2PI, cos_2PI. ring. }
    assert (Hc : cos theta = cos (theta - 2 * PI)).
    { rewrite cos_minus, sin_2PI, cos_2PI. ring. }
    rewrite Hs, Hc, Math_atan2_polar by lra.
    replace ((theta - 2 * PI) * 180 / PI) with (h - 360)
      by (rewrite Hth; field; lra).
    rewrite ltb_true by lra. lra.
Qed.

(** A buffer that holds one heading several times averages to it. *)
Lemma averageAngle_repeat (h : R) (n : nat) :
  0 <= h < 360 -> (1 <= n)%nat -> averageAngle (repeat h n) = h.
Proof.
  intros Hh Hn.
  assert (Hne : repeat h n <> []) by (destruct n; [lia | discriminate]).
  rewrite averageAngle_circularMean by exact Hne.
  unfold circularMean, sumX, sumY.
  rewrite (fold_plus_repeat (fun angle => cos (angle * PI / 180))).
  rewrite (fold_plus_repeat (fun angle => sin (angle * PI / 180))).
  assert (Hk : 0 < INR n) by (apply lt_0_INR; lia).
  rewrite <- (Math_atan2_scale _ _ (INR n) Hk).
  replace (INR n * sin (h * PI / 180) / INR n) with (sin (h * PI / 180))
    by (field; lra).
  replace (INR n * cos (h * PI / 180) / INR n) with (cos (h * PI / 180))
    by (field; lra).
  apply unit_vector_angle, Hh.
Qed.






(** The same heading again: it is the output, and the buffer holds one
    more of it, up to ten. *)
Lemma getSmoothedHeading_repeat (h : R) (k : nat) :
  0 <= h < 360 -> (k <= HEADING_SMOOTHING_BUFFER_SIZE)%nat ->
  getSmoothedHeading h (repeat h k)
  = (h, repeat h (Nat.min (S k) HEADING_SMOOTHING_BUFFER_SIZE)).
Proof.
  intros Hh Hk. unfold getSmoothedHeading.
  assert (Hw : wrapReset h (repeat h k) = repeat h k).
  { unfold wrapReset. destruct k as [| k]; [reflexivity |].
    cbn [repeat]. change (h :: repeat h k) with (repeat h (S k)).
    rewrite lastAvg_repeat by lia.
    rewrite gtb_false; [reflexivity |].
    replace (h - h) with 0 by lra. rewrite Rabs_R0. lra. }
  rewrite Hw.
  assert (Hp : pushBounded h (repeat h k)
               = repeat h (Nat.min (S k) HEADING_SMOOTHING_BUFFER_SIZE)).
  { unfold pushBounded. rewrite <- repeat_cons.
    change (h :: repeat h k) with (repeat h (S k)).
    rewrite repeat_length.
    destruct (Nat.ltb_spec HEADING_SMOOTHING_BUFFER_SIZE (S k)) as [Hc | Hc].
    - cbn [repeat tl]. f_equal. lia.
    - f_equal. lia. }
  rewrite Hp. f_equal.
  apply averageAngle_repeat; [exact Hh |]. unfold HEADING_SMOOTHING_BUFFER_SIZE. lia.
Qed.

End HeadingFilterFacts.

(* ================================================================== *)
(** * The heading buffer across sessions *)
(* ================================================================== *)

Section ProcessFacts.
Import JsNum HeadingFilter HeadingProps DeviceSensors.

Lemma averageAngle_90_180 : averageAngle [90; 180] = 135.
Proof.
  pose proof PI_RGT_0 as Hpi.
  unfold averageAngle, sumX, sumY. cbn [fold_left length].
  replace (90 * PI / 180) with (PI / 2) by field.
  replace (180 * PI / 180) with PI by field.
  rewrite cos_PI2, sin_PI2, cos_PI, sin_PI.
  replace (INR 2) with 2 by (simpl; lra).
  replace ((0 + 0 + -1) / 2) with (- (1 / 2)) by lra.
  replace ((0 + 1 + 0) / 2) with (1 / 2) by lra.
  unfold Math_atan2.
  destruct (Rlt_dec 0 (- (1 / 2))); [lra |].
  destruct (Rlt_dec (- (1 / 2)) 0); [| lra].
  destruct (Rle_dec 0 (1 / 2)); [| lra].
  replace (1 / 2 / - (1 / 2)) with (- (1)) by (field; lra).
  rewrite atan_opp, atan_1.
  replace ((- (PI / 4) + PI) * 180 / PI) with 135 by (field; lra).
  rewrite ltb_false by lra. reflexivity.
Qed.

Lemma first_orientation (a : R) :
  0 < a <= 360 ->
  handleOrientation (orientation a) processStart
  = {| headingBuffer := [360 - a]; heading := Some (360 - a) |}.
Proof.
  intros Ha. unfold handleOrientation, orientation, compassHeading, processStart.
  cbn [alpha webkitCompassHeading headingBuffer].
  change (getSmoothedHeading (360 - a) [])
    with (getSmoothedHeading (360 - a) (repeat (360 - a) 0)).
  rewrite getSmoothedHeading_repeat
    by (lra || (unfold HEADING_SMOOTHING_BUFFER_SIZE; lia)).
  reflexivity.
Qed.

(** C7, the code at the failing input: a first session hears one
    orientation event (alpha 270, heading 90) and ends; a second session is
    mounted and hears alpha 180 (heading 180).  The buffer of the module is
    still the one of the first session, so the first smoothed heading of
    the second session is 135, the mean of 90 and 180, where a session
    with a buffer of its own puts out 180. *)
Theorem C7_heading_buffer_outlives_session :
  let first := handleOrientation (orientation 270) processStart in
  let second := mountSession first in
  heading first = Some 90
  /\ heading second = None
  /\ headingBuffer second = [90]
  /\ heading (handleOrientation (orientation 180) second) = Some 135
  /\ heading (handleOrientation (orientation 180) processStart) = Some 180.
Proof.
  intros first second. subst second first.
  rewrite !first_orientation by lra.
  split; [cbn [heading]; f_equal; lra |].
  split; [reflexivity |].
  split; [cbn [mountSession headingBuffer]; f_equal; lra |].
  split; [| cbn [heading]; f_equal; lra].
  unfold handleOrientation, orientation, compassHeading, mountSession.
  cbn [alpha webkitCompassHeading headingBuffer heading].
  unfold getSmoothedHeading, wrapReset.
  rewrite lastAvg_singleton.
  rewrite gtb_false.
  - change (pushBounded (360 - 180) [360 - 270]) with [360 - 270; 360 - 180].
    cbn [heading]. f_equal.
    replace (360 - 270) with 90 by lra. replace (360 - 180) with 180 by lra.
    apply averageAngle_90_180.
  - replace (360 - 180 - (360 - 270)) with 90 by lra.
    rewrite Rabs_right by lra. lra.
Qed.

End ProcessFacts.

(* ================================================================== *)
(** * More on BearingMath *)
(* ================================================================== *)

Section BearingMathMore.
Import JsNum BearingMath.

(** Two angles of [-180, 180) that differ by whole turns are the same. *)
Lemma half_open_turn_unique (a b : R) (k : Z) :
  -180 <= a < 180 -> -180 <= b < 180 -> a = b + 360 * IZR k -> a = b.
Proof.
  intros Ha Hb E.
  assert (Hk : (k = 0)%Z).
  { assert (-1 < IZR k < 1) as [H1 H2] by lra.
    apply lt_IZR in H1, H2. lia. }
  subst k. lra.
Qed.

Lemma normalizeAngle_eq_iff (x y : R) :
  normalizeAngle x = normalizeAngle y <-> exists k : Z, x = y + 360 * IZR k.
Proof.
  destruct (normalizeAngle_congr x) as [kx Hx].
  destruct (normalizeAngle_congr y) as [ky Hy].
  split.
  - intros E. exists (ky - kx)%Z. rewrite minus_IZR. lra.
  - intros [k E].
    apply (half_open_turn_unique _ _ (k + kx - ky));
      try apply normalizeAngle_range.
    rewrite minus_IZR, plus_IZR. lra.
Qed.

(** X1: two angles are normalised to the same value exactly when they
    differ by a whole number of turns, so [normalizeAngle] picks one
    representative of each direction and has period 360. *)
Theorem X1_normalizeAngle_same_direction (x y : R) :
  normalizeAngle x = normalizeAngle y <-> exists k : Z, x = y + 360 * IZR k.
Proof. apply normalizeAngle_eq_iff. Qed.

(** X2: normalising twice is normalising once, and an angle that already
    lies in [-180, 180) is returned as it is. *)
Theorem X2_normalizeAngle_idempotent :
  (forall x : R, normalizeAngle (normalizeAngle x) = normalizeAngle x)
  /\ (forall x : R, -180 <= x < 180 -> normalizeAngle x = x)
  /\ (forall x : R, normalizeAngle x = x -> -180 <= x < 180).
Proof.
  split; [| split].
  - intros x. apply normalizeAngle_id, normalizeAngle_range.
  - apply normalizeAngle_id.
  - intros x E. rewrite <- E. apply normalizeAngle_range.
Qed.

Lemma X2_normalizeAngle_idempotent_witness : normalizeAngle (-90) = -90.
Proof.
  refine (proj1 (proj2 X2_normalizeAngle_idempotent) (-90) _). lra.
Defined.

(** X3: for every observed heading the relative bearing lies in
    [-180, 180), turning by it from the heading gives the destination
    bearing 296 up to whole turns, and it is 0 exactly when the heading is
    296 up to whole turns. *)
Theorem X3_relativeBearing_points_to_destination (h : R) :
  -180 <= relativeBearing (Some h) < 180
  /\ (exists k : Z, h + relativeBearing (Some h) = DESTINATION_BEARING + 360 * IZR k)
  /\ (relativeBearing (Some h) = 0
      <-> exists k : Z, h = DESTINATION_BEARING + 360 * IZR k).
Proof.
  unfold relativeBearing. split; [apply normalizeAngle_range |]. split.
  - destruct (normalizeAngle_congr (DESTINATION_BEARING - h)) as [k Hk].
    exists k. lra.
  - rewrite <- (normalizeAngle_id 0) at 1 by lra.
    rewrite normalizeAngle_eq_iff.
    split; intros [k Hk]; exists (- k)%Z; rewrite opp_IZR; lra.
Qed.

End BearingMathMore.

(* ================================================================== *)
(** * The distance estimate *)
(* ================================================================== *)

Section DistanceFacts.
Import JsNum BeaconScanner.

Lemma pow10_even_pos (t : R) : t <> 0 -> 0 < t ^ 10.
Proof.
  intros Ht. replace (t ^ 10) with ((t ^ 5) * (t ^ 5)) by ring.
  assert (H5 : t ^ 5 <> 0) by (apply pow_nonzero, Ht).
  nra.
Qed.

Lemma Math_pow10_pos (e : R) : 0 < Math_pow10 e.
Proof. unfold Math_pow10, Rpower. apply exp_pos. Qed.

Lemma Math_pow10_ge_1 (e : R) : 0 <= e -> 1 <= Math_pow10 e.
Proof.
  intros [He | <-]; unfold Math_pow10.
  - rewrite <- (Rpower_O 10) by lra. left. apply Rpower_lt; lra.
  - rewrite Rpower_O by lra. lra.
Qed.

(** The estimate of a signal that is not 0: inside the calibrated power
    the tenth power of the ratio, from there on the power of ten. *)
Lemma estimateDistance_near (r : R) :
  r <> 0 -> -59 < r -> estimateDistance r = (r / -59) ^ 10.
Proof.
  intros H0 Hr. unfold estimateDistance, TX_POWER.
  rewrite eqb_neq by exact H0.
  replace (r * 1.0 / -59) with (r / -59) by lra.
  rewrite ltb_true by lra. reflexivity.
Qed.

Lemma estimateDistance_far (r : R) :
  r <= -59 -> estimateDistance r = Math_pow10 ((-59 - r) / 20).
Proof.
  intros Hr. unfold estimateDistance, TX_POWER, ENVIRONMENTAL_FACTOR.
  rewrite eqb_neq by lra.
  rewrite ltb_false by lra.
  f_equal. lra.
Qed.

(** X4: the estimate is the sentinel -1 for the signal strength 0 and for
    no other; for every other signal strength it is a positive distance. *)
Theorem X4_estimateDistance_sentinel (r : R) :
  (estimateDistance r = -1 <-> r = 0)
  /\ (r <> 0 -> 0 < estimateDistance r).
Proof.
  assert (Hpos : r <> 0 -> 0 < estimateDistance r).
  { intros H0. destruct (Rlt_le_dec (-59) r) as [Hr | Hr].
    - rewrite estimateDistance_near by assumption.
      apply pow10_even_pos. intros E.
      apply H0. replace r with (r / -59 * -59) by (field; lra). rewrite E. lra.
    - rewrite estimateDistance_far by exact Hr. apply Math_pow10_pos. }
  split; [| exact Hpos]. split.
  - intros E. destruct (Req_dec_T r 0) as [H0 | H0]; [exact H0 |].
    specialize (Hpos H0). lra.
  - intros ->. unfold estimateDistance. rewrite eqb_refl. lra.
Qed.

(** A signal between the calibrated power and 0 is less than a metre
    away. *)
Lemma estimateDistance_near_lt_1 (r : R) :
  -59 < r -> r < 0 -> 0 < estimateDistance r < 1.
Proof.
  intros H1 H2. rewrite estimateDistance_near by lra.
  assert (Hq : 0 < r / -59 < 1) by (split; unfold Rdiv; nra).
  split; [apply pow_lt; lra |].
  apply pow_lt_1_compat; [lra | lia].
Qed.

Lemma estimateDistance_decreasing (r1 r2 : R) :
  r1 < r2 -> r2 < 0 -> estimateDistance r2 < estimateDistance r1.
Proof.
  intros H12 H2.
  destruct (Rlt_le_dec (-59) r1) as [Hn1 | Hf1].
  - (* both near *)
    rewrite !estimateDistance_near by lra.
    assert (Hq : 0 < r2 / -59 < r1 / -59) by (split; unfold Rdiv; nra).
    replace ((r1 / -59) ^ 10) with ((r1 / -59) ^ 9 * (r1 / -59)) by ring.
    replace ((r2 / -59) ^ 10) with ((r2 / -59) ^ 9 * (r2 / -59)) by ring.
    assert (H9 : (r2 / -59) ^ 9 <= (r1 / -59) ^ 9) by (apply pow_incr; lra).
    assert (H9p : 0 < (r2 / -59) ^ 9) by (apply pow_lt; lra).
    nra.
  - destruct (Rlt_le_dec (-59) r2) as [Hn2 | Hf2].
    + (* far and near *)
      pose proof (estimateDistance_near_lt_1 r2 Hn2 H2).
      rewrite (estimateDistance_far r1) by exact Hf1.
      pose proof (Math_pow10_ge_1 ((-59 - r1) / 20) ltac:(lra)). lra.
    + (* both far *)
      rewrite !estimateDistance_far by lra.
      unfold Math_pow10. apply Rpower_lt; lra.
Qed.

(** X5: over the negative signal strengths a weaker signal gives a
    strictly larger distance. *)
Theorem X5_estimateDistance_decreasing (r1 r2 : R) :
  r1 < r2 -> r2 < 0 -> estimateDistance r2 < estimateDistance r1.
Proof. apply estimateDistance_decreasing. Qed.

Lemma X5_estimateDistance_decreasing_witness :
  estimateDistance (-60) < estimateDistance (-70).
Proof. apply X5_estimateDistance_decreasing; lra. Defined.

(** X6: a negative signal strength is estimated at less than one metre
    exactly when it is stronger than the calibrated power of -59 dBm, and
    at exactly one metre at that power. *)
Theorem X6_estimateDistance_one_metre (r : R) :
  r < 0 ->
  (estimateDistance r < 1 <-> -59 < r)
  /\ (estimateDistance r = 1 <-> r = -59).
Proof.
  intros Hr.
  assert (Hfar : r < -59 -> 1 < estimateDistance r).
  { intros H. rewrite estimateDistance_far by lra.
    unfold Math_pow10. rewrite <- (Rpower_O 10) by lra.
    apply Rpower_lt; lra. }
  assert (H59 : estimateDistance (-59) = 1).
  { rewrite estimateDistance_far by lra. unfold Math_pow10.
    replace ((-59 - -59) / 20) with 0 by lra. apply Rpower_O. lra. }
  split; split.
  - intros H. destruct (Rlt_le_dec (-59) r) as [Hn | Hf]; [exact Hn |].
    destruct Hf as [Hf | ->]; [specialize (Hfar Hf) |]; lra.
  - intros H. apply estimateDistance_near_lt_1; assumption.
  - intros H. destruct (Rtotal_order r (-59)) as [Hlt | [-> | Hgt]];
      [specialize (Hfar Hlt); lra | reflexivity |].
    pose proof (estimateDistance_near_lt_1 r Hgt Hr). lra.
  - intros ->. exact H59.
Qed.

Lemma X6_estimateDistance_one_metre_witness :
  estimateDistance (-50) < 1.
Proof.
  refine (proj2 (proj1 (X6_estimateDistance_one_metre (-50) _)) _); lra.
Defined.

(** The twentieth power of [10 ^ (k / 20)]. *)
Lemma Math_pow10_twentieth (k : nat) :
  Math_pow10 (INR k / 20) ^ 20 = 10 ^ k.
Proof.
  unfold Math_pow10.
  rewrite <- (Rpower_pow 20) by (unfold Rpower; apply exp_pos).
  rewrite Rpower_mult.
  replace (INR k / 20 * INR 20) with (INR k)
    by (rewrite (INR_IZR_INZ 20); simpl; field).
  apply Rpower_pow. lra.
Qed.

Lemma estimateDistance_62 : estimateDistance (-62) < 1.5.
Proof.
  rewrite estimateDistance_far by lra.
  replace ((-59 - -62) / 20) with (INR 3 / 20) by (simpl; lra).
  pose proof (Math_pow10_twentieth 3) as H20.
  pose proof (Math_pow10_pos (INR 3 / 20)) as Hpos.
  apply Rnot_le_lt. intros Hle.
  assert (H : 1.5 ^ 20 <= Math_pow10 (INR 3 / 20) ^ 20) by (apply pow_incr; lra).
  rewrite H20 in H.
  assert (Hc : 10 ^ 3 < 1.5 ^ 20) by (simpl; lra).
  lra.
Qed.

Lemma estimateDistance_63 : 1.5 < estimateDistance (-63).
Proof.
  rewrite estimateDistance_far by lra.
  replace ((-59 - -63) / 20) with (INR 4 / 20) by (simpl; lra).
  pose proof (Math_pow10_twentieth 4) as H20.
  pose proof (Math_pow10_pos (INR 4 / 20)) as Hpos.
  apply Rnot_le_lt. intros Hle.
  assert (H : Math_pow10 (INR 4 / 20) ^ 20 <= 1.5 ^ 20) by (apply pow_incr; lra).
  rewrite H20 in H.
  assert (Hc : 1.5 ^ 20 < 10 ^ 4) by (simpl; lra).
  lra.
Qed.

Lemma estimateDistance_in_reach (r : R) :
  -62 <= r -> r < 0 -> estimateDistance r < 1.5.
Proof.
  intros H1 H2. destruct H1 as [H1 | <-]; [| apply estimateDistance_62].
  pose proof estimateDistance_62.
  pose proof (estimateDistance_decreasing (-62) r H1 H2). lra.
Qed.

Lemma estimateDistance_out_of_reach (r : R) :
  r <= -63 -> 1.5 < estimateDistance r.
Proof.
  intros H1. destruct H1 as [H1 | ->]; [| apply estimateDistance_63].
  pose proof estimateDistance_63.
  pose proof (estimateDistance_decreasing r (-63) H1 ltac:(lra)). lra.
Qed.

(** X10: in whole dBm the proximity radius of 1.5 m of the hallway
    checkpoint is the signal strength -62: a negative signal of -62 dBm or
    stronger is estimated nearer than 1.5 m, one of -63 dBm or weaker
    farther than 1.5 m. *)
Theorem X10_estimateDistance_radius_in_dBm :
  (forall r : R, -62 <= r -> r < 0 -> estimateDistance r < 1.5)
  /\ (forall r : R, r <= -63 -> 1.5 < estimateDistance r).
Proof.
  split; [apply estimateDistance_in_reach | apply estimateDistance_out_of_reach].
Qed.

Lemma X10_estimateDistance_radius_in_dBm_witness :
  estimateDistance (-60) < 1.5 /\ 1.5 < estimateDistance (-70).
Proof.
  split.
  - apply (proj1 X10_estimateDistance_radius_in_dBm); lra.
  - apply (proj2 X10_estimateDistance_radius_in_dBm); lra.
Defined.

End DistanceFacts.

(* ================================================================== *)
(** * The beacon list *)
(* ================================================================== *)

Section ScanFacts.
Import JsNum BeaconScanner ScanProps.

Lemma insertByDistance_perm (b : Beacon) (l : list Beacon) :
  Permutation (insertByDistance b l) (b :: l).
Proof.
  induction l as [| c l IH]; simpl; [reflexivity |].
  destruct (geb _ _); [reflexivity |].
  rewrite IH. apply perm_swap.
Qed.

Lemma sortByDistance_perm (l : list Beacon) : Permutation (sortByDistance l) l.
Proof.
  induction l as [| b l IH]; simpl; [reflexivity |].
  rewrite insertByDistance_perm, IH. reflexivity.
Qed.

Lemma insertByDistance_sorted (b : Beacon) (l : list Beacon) :
  StronglySorted byDistance l -> StronglySorted byDistance (insertByDistance b l).
Proof.
  induction l as [| c l IH]; intros Hs; simpl.
  - constructor; constructor.
  - inversion Hs as [| ? ? Hl Hc]; subst.
    destruct (geb (distance c) (distance b)) eqn:E.
    + apply geb_spec in E. constructor; [exact Hs |].
      constructor; [exact E |].
      eapply Forall_impl; [exact Hc |]. unfold byDistance. intros; simpl in *; lra.
    + assert (Hlt : distance c < distance b).
      { apply Rnot_le_lt. intros H. apply geb_spec in H. congruence. }
      constructor; [apply IH, Hl |].
      rewrite insertByDistance_perm. constructor; [unfold byDistance; lra | exact Hc].
Qed.

Lemma sortByDistance_sorted (l : list Beacon) :
  StronglySorted byDistance (sortByDistance l).
Proof.
  induction l as [| b l IH]; simpl; [constructor |].
  apply insertByDistance_sorted, IH.
Qed.

(** The list that [handleAdvertisement] sorts. *)
Lemma updated_upsert (event : Advertisement) (prev : list Beacon) :
  match findIndex (device_id event) prev with
  | Some existingBeaconIndex => <[existingBeaconIndex := newBeacon event]> prev
  | None => prev ++ [newBeacon event]
  end = upsert (newBeacon event) prev.
Proof.
  induction prev as [| c l IH]; [reflexivity |].
  cbn [findIndex upsert]. change (id (newBeacon event)) with (device_id event).
  destruct (String.eqb (id c) (device_id event)); [reflexivity |].
  rewrite <- IH. destruct (findIndex (device_id event) l); reflexivity.
Qed.

Lemma handleAdvertisement_perm (event : Advertisement) (prev : list Beacon) :
  Permutation (handleAdvertisement event prev) (upsert (newBeacon event) prev).
Proof.
  unfold handleAdvertisement. rewrite updated_upsert. apply sortByDistance_perm.
Qed.

Lemma upsert_length (nb : Beacon) (l : list Beacon) :
  length (upsert nb l)
  = if existsb (fun c => String.eqb (id c) (id nb)) l
    then length l else S (length l).
Proof.
  induction l as [| c l IH]; [reflexivity |].
  cbn [upsert existsb]. destruct (String.eqb (id c) (id nb)); [reflexivity |].
  cbn [orb length]. rewrite IH. destruct (existsb _ l); reflexivity.
Qed.

Lemma upsert_new (nb : Beacon) (l : list Beacon) : nb ∈ upsert nb l.
Proof.
  induction l as [| c l IH]; cbn [upsert]; [apply list_elem_of_here |].
  destruct (String.eqb _ _); [apply list_elem_of_here | apply list_elem_of_further, IH].
Qed.

Lemma upsert_elem_weak (nb b : Beacon) (l : list Beacon) :
  b ∈ upsert nb l -> b = nb \/ b ∈ l.
Proof.
  induction l as [| c l IH]; cbn [upsert].
  - intros H. apply list_elem_of_singleton in H. left. exact H.
  - destruct (String.eqb _ _).
    + intros H. apply elem_of_cons in H as [-> | H]; [left; reflexivity |].
      right. apply list_elem_of_further, H.
    + intros H. apply elem_of_cons in H as [-> | H];
        [right; apply list_elem_of_here |].
      destruct (IH H) as [-> | H']; [left; reflexivity |].
      right. apply list_elem_of_further, H'.
Qed.

Lemma upsert_elem (nb b : Beacon) (l : list Beacon) :
  NoDup (map id l) ->
  b ∈ upsert nb l <-> b = nb \/ (b ∈ l /\ id b <> id nb).
Proof.
  induction l as [| c l IH]; intros Hnd; cbn [upsert].
  - rewrite list_elem_of_singleton. split; [intros ->; left; reflexivity |].
    intros [-> | [H _]]; [reflexivity |]. inversion H.
  - cbn [map] in Hnd. apply NoDup_cons in Hnd as [Hc Hnd].
    destruct (String.eqb_spec (id c) (id nb)) as [E | E].
    + rewrite elem_of_cons. split.
      * intros [-> | H]; [left; reflexivity |]. right. split.
        -- apply list_elem_of_further, H.
        -- intros Eb. apply Hc. rewrite E, <- Eb.
           apply list_elem_of_fmap_2, H.
      * intros [-> | [H Hb]]; [left; reflexivity |].
        apply elem_of_cons in H as [-> | H]; [congruence |]. right. exact H.
    + rewrite elem_of_cons, (IH Hnd). split.
      * intros [-> | [-> | [H Hb]]].
        -- right. split; [apply list_elem_of_here | exact E].
        -- left. reflexivity.
        -- right. split; [apply list_elem_of_further, H | exact Hb].
      * intros [-> | [H Hb]]; [right; left; reflexivity |].
        apply elem_of_cons in H as [-> | H]; [left; reflexivity |].
        right. right. split; assumption.
Qed.

Lemma upsert_NoDup (nb : Beacon) (l : list Beacon) :
  NoDup (map id l) -> NoDup (map id (upsert nb l)).
Proof.
  induction l as [| c l IH]; intros Hnd; cbn [upsert].
  - cbn. apply NoDup_singleton.
  - cbn [map] in Hnd. pose proof Hnd as Hnd0.
    apply NoDup_cons in Hnd as [Hc Hnd].
    destruct (String.eqb_spec (id c) (id nb)) as [E | E].
    + cbn [map]. rewrite <- E. exact Hnd0.
    + cbn [map]. apply NoDup_cons. split; [| apply IH, Hnd].
      intros H. apply list_elem_of_fmap in H as (b & Eb & Hb).
      apply upsert_elem_weak in Hb as [-> | Hb]; [congruence |].
      apply Hc. rewrite Eb. apply list_elem_of_fmap_2, Hb.
Qed.

Lemma handleAdvertisement_elem (event : Advertisement) (prev : list Beacon) (b : Beacon) :
  NoDup (map id prev) ->
  b ∈ handleAdvertisement event prev
  <-> b = newBeacon event \/ (b ∈ prev /\ id b <> device_id event).
Proof.
  intros Hnd. rewrite handleAdvertisement_perm.
  apply (upsert_elem (newBeacon event) b prev Hnd).
Qed.

Lemma handleAdvertisement_NoDup (event : Advertisement) (prev : list Beacon) :
  NoDup (map id prev) -> NoDup (map id (handleAdvertisement event prev)).
Proof.
  intros Hnd.
  rewrite (Permutation_map id (handleAdvertisement_perm event prev)).
  apply upsert_NoDup, Hnd.
Qed.

(** X7: whatever list was there before, the list after an advertisement
    is sorted by distance, closest first, holds the beacon built from the
    advertisement, and is as long as before when the device was listed and
    one longer when it was not. *)
Theorem X7_handleAdvertisement_sorted (event : Advertisement) (prev : list Beacon) :
  StronglySorted byDistance (handleAdvertisement event prev)
  /\ newBeacon event ∈ handleAdvertisement event prev
  /\ length (handleAdvertisement event prev)
     = if existsb (fun c => String.eqb (id c) (device_id event)) prev
       then length prev else S (length prev).
Proof.
  split; [apply sortByDistance_sorted |]. split.
  - rewrite handleAdvertisement_perm. apply upsert_new.
  - rewrite (Permutation_length (handleAdvertisement_perm event prev)).
    apply (upsert_length (newBeacon event)).
Qed.

Lemma scan_snoc (events : list Advertisement) (e : Advertisement) :
  scan (events ++ [e]) = handleAdvertisement e (scan events).
Proof. unfold scan. rewrite fold_left_app. reflexivity. Qed.

Lemma latest_snoc (i : string) (events : list Advertisement) (e : Advertisement) :
  latest i (events ++ [e])
  = if String.eqb (device_id e) i then Some e else latest i events.
Proof.
  induction events as [| a events IH]; cbn [app latest].
  - destruct (String.eqb _ _); reflexivity.
  - rewrite IH. destruct (String.eqb (device_id e) i); [reflexivity |].
    reflexivity.
Qed.

Lemma scan_invariant (events : list Advertisement) :
  NoDup (map id (scan events))
  /\ forall b : Beacon,
      b ∈ scan events
      <-> exists e, latest (id b) events = Some e /\ b = newBeacon e.
Proof.
  induction events as [| e events IH] using rev_ind.
  - split; [constructor |]. intros b. split.
    + intros H. inversion H.
    + intros (e & H & _). discriminate.
  - destruct IH as [Hnd Hel]. rewrite scan_snoc. split.
    + apply handleAdvertisement_NoDup, Hnd.
    + intros b. rewrite (handleAdvertisement_elem e _ b Hnd), latest_snoc.
      destruct (String.eqb_spec (device_id e) (id b)) as [E | E].
      * split.
        -- intros [-> | [_ Hb]]; [| congruence]. exists e. split; reflexivity.
        -- intros (e' & He & ->). left. congruence.
      * split.
        -- intros [-> | [Hb _]]; [exfalso; apply E; reflexivity |].
           apply Hel, Hb.
        -- intros H. right. split; [apply Hel, H | congruence].
Qed.

(** X8: after any stream of advertisements the list holds one beacon for
    each device heard, namely the one built from the last advertisement of
    that device, and it is sorted by distance. *)
Theorem X8_scan_keeps_latest_per_device (events : list Advertisement) :
  NoDup (map id (scan events))
  /\ StronglySorted byDistance (scan events)
  /\ forall b : Beacon,
      b ∈ scan events
      <-> exists e, latest (id b) events = Some e /\ b = newBeacon e.
Proof.
  destruct (scan_invariant events) as [Hnd Hel].
  split; [exact Hnd |]. split; [| exact Hel].
  destruct events as [| e events _] using rev_ind; [constructor |].
  rewrite scan_snoc. apply sortByDistance_sorted.
Qed.

End ScanFacts.

(* ================================================================== *)
(** * The correction effect over a list of beacons *)
(* ================================================================== *)

Section CorrectionFacts.
Import JsNum BeaconScanner ScanProps ARNavigation Props.

Lemma correctFor_hallway (n : Z) (b : Beacon) :
  correctFor BEACON_CHECKPOINTS n b
  = if hallwayInReach b then Z.max n 5 else n.
Proof.
  unfold correctFor, BEACON_CHECKPOINTS, hallwayInReach. cbn [find].
  unfold nameMatches. cbn [ARNavigation.name].
  destruct (BeaconScanner.name b) as [nm |]; [| reflexivity].
  destruct (String.eqb "Memora-Hallway" nm); [| reflexivity].
  cbn [proximity_m andb]. destruct (ltb _ _); [| reflexivity].
  rewrite snapTo_spec. reflexivity.
Qed.

Lemma fold_correctFor_hallway (bs : list Beacon) (n : Z) :
  fold_left (correctFor BEACON_CHECKPOINTS) bs n
  = if existsb hallwayInReach bs then Z.max n 5 else n.
Proof.
  revert n. induction bs as [| b bs IH]; intros n; [reflexivity |].
  cbn [fold_left existsb]. rewrite IH, correctFor_hallway.
  destruct (hallwayInReach b); cbn [orb]; [| reflexivity].
  destruct (existsb _ bs); lia.
Qed.

Lemma dispatch_beacons_steps (s : Session) (bs : list Beacon) :
  navState s = NAVIGATING ->
  steps (dispatch s (Beacons bs))
  = if existsb hallwayInReach bs then Z.max (steps s) 5 else steps s.
Proof.
  intros Hn. cbn [dispatch]. rewrite afterRender_steps.
  unfold beaconCorrectionEffect. rewrite Hn. cbn [NavState_eqb negb].
  destruct bs as [| b bs]; [reflexivity |].
  cbn [steps]. apply (fold_correctFor_hallway (b :: bs)).
Qed.

(** X9: while navigating, a beacon event raises the step count to 5 when
    some beacon of the list is named Memora-Hallway and is nearer than
    1.5, and leaves it as it is otherwise; in particular the result does
    not depend on the order or the number of the beacons. *)
Theorem X9_correction_depends_on_reach_only (s : Session) (bs : list Beacon) :
  navState s = NAVIGATING ->
  steps (dispatch s (Beacons bs))
  = (if existsb hallwayInReach bs then Z.max (steps s) 5 else steps s)
  /\ forall bs' : list Beacon,
      Permutation bs bs' ->
      steps (dispatch s (Beacons bs')) = steps (dispatch s (Beacons bs)).
Proof.
  intros Hn. split; [apply dispatch_beacons_steps, Hn |].
  intros bs' Hp. rewrite !dispatch_beacons_steps by exact Hn.
  assert (E : existsb hallwayInReach bs' = existsb hallwayInReach bs).
  { apply eq_true_iff_eq. rewrite !existsb_exists.
    split; intros (b & Hb & Hr); exists b; (split; [| exact Hr]).
    - eapply Permutation_in; [symmetry; exact Hp | exact Hb].
    - eapply Permutation_in; [exact Hp | exact Hb]. }
  rewrite E. reflexivity.
Qed.

Lemma X9_correction_depends_on_reach_only_witness :
  steps (dispatch navigatingSession
           (Beacons [newBeacon (hallwayAdvertisement (-59))])) = 5%Z.
Proof.
  refine (eq_trans
            (proj1 (X9_correction_depends_on_reach_only navigatingSession
                      [newBeacon (hallwayAdvertisement (-59))] _)) _).
  - reflexivity.
  - cbn [existsb orb]. unfold hallwayInReach.
    cbn [newBeacon BeaconScanner.name hallwayAdvertisement device_name nameOrNull
           String.eqb Ascii.eqb Bool.eqb andb distance event_rssi].
    rewrite estimateDistance_tx_power, ltb_true by lra. reflexivity.
Defined.

Lemma hallwayInReach_newBeacon (adv : Advertisement) :
  nameOrNull (device_name adv) = Some "Memora-Hallway"%string ->
  hallwayInReach (newBeacon adv) = ltb (estimateDistance (event_rssi adv)) 1.5.
Proof.
  intros Hname. unfold hallwayInReach.
  cbn [newBeacon BeaconScanner.name distance]. rewrite Hname. reflexivity.
Qed.

(** X11: while navigating, an advertisement named Memora-Hallway with a
    negative signal of -62 dBm or stronger raises the step count to 5
    whatever else is in the list; one of -63 dBm or weaker changes
    nothing as long as no beacon of the list before was a hallway beacon
    in reach. *)
Theorem X11_hallway_signal_corrects (s : Session) (adv : Advertisement)
        (prev : list Beacon) :
  navState s = NAVIGATING ->
  nameOrNull (device_name adv) = Some "Memora-Hallway"%string ->
  (-62 <= event_rssi adv -> event_rssi adv < 0 ->
   steps (dispatch s (Beacons (handleAdvertisement adv prev)))
   = Z.max (steps s) 5)
  /\ (event_rssi adv <= -63 ->
      Forall (fun b => hallwayInReach b = false) prev ->
      steps (dispatch s (Beacons (handleAdvertisement adv prev))) = steps s).
Proof.
  intros Hn Hname. rewrite dispatch_beacons_steps by exact Hn. split.
  - intros H1 H2.
    assert (E : existsb hallwayInReach (handleAdvertisement adv prev) = true).
    { apply existsb_exists. exists (newBeacon adv). split.
      - apply list_elem_of_In. rewrite handleAdvertisement_perm. apply upsert_new.
      - rewrite hallwayInReach_newBeacon by exact Hname.
        apply ltb_true, estimateDistance_in_reach; assumption. }
    rewrite E. reflexivity.
  - intros H1 Hprev.
    assert (E : existsb hallwayInReach (handleAdvertisement adv prev) = false).
    { apply not_true_is_false. intros H.
      apply existsb_exists in H as (b & Hb & Hr).
      apply list_elem_of_In in Hb. rewrite handleAdvertisement_perm in Hb.
      apply upsert_elem_weak in Hb as [-> | Hb].
      - rewrite hallwayInReach_newBeacon in Hr by exact Hname.
        apply ltb_spec in Hr.
        pose proof (estimateDistance_out_of_reach _ H1). lra.
      - rewrite Forall_forall in Hprev. rewrite (Hprev b Hb) in Hr. discriminate. }
    rewrite E. reflexivity.
Qed.

Lemma X11_hallway_signal_corrects_witness :
  steps (dispatch navigatingSession
           (Beacons (handleAdvertisement (hallwayAdvertisement (-60)) [])))
  = 5%Z.
Proof.
  refine (proj1 (X11_hallway_signal_corrects navigatingSession
                   (hallwayAdvertisement (-60)) [] _ _) _ _).
  - reflexivity.
  - reflexivity.
  - cbn [hallwayAdvertisement event_rssi]. lra.
  - cbn [hallwayAdvertisement event_rssi]. lra.
Defined.

End CorrectionFacts.

(* ================================================================== *)
(** * The gravity filter *)
(* ================================================================== *)

Section MotionFacts.
Import JsNum ARNavigation Props MotionSensor MotionProps.

Lemma Vec3_eq (a b : Vec3) :
  ARNavigation.x a = ARNavigation.x b -> ARNavigation.y a = ARNavigation.y b ->
  ARNavigation.z a = ARNavigation.z b -> a = b.
Proof. destruct a, b. simpl. intros -> -> ->. reflexivity. Qed.

(** One raw reading: the new gravity and the sample that is published. *)
Lemma handleMotion_raw (r : Vec3) (h : Hook) :
  handleMotion (rawEvent r) h
  = ({| gravity := vsub r (vscale alpha (vsub r (gravity h)));
        linearAcceleration := Some (vscale alpha (vsub r (gravity h))) |},
     true).
Proof.
  unfold handleMotion, rawEvent, fromGravity.
  cbn [acceleration accelerationIncludingGravity MotionSensor.x MotionSensor.y
         MotionSensor.z orZero].
  f_equal. f_equal.
  - apply Vec3_eq; unfold lowPass, alpha; simpl; ring.
  - f_equal. apply Vec3_eq; unfold lowPass, alpha; simpl; ring.
Qed.

Lemma hookAfter_S (n : nat) (r : Vec3) (h : Hook) :
  hookAfter (S n) r h = fst (handleMotion (rawEvent r) (hookAfter n r h)).
Proof.
  unfold hookAfter. rewrite seq_S, fold_left_app. reflexivity.
Qed.

Lemma hookAfter_closed (n : nat) (r : Vec3) (h : Hook) :
  gravity (hookAfter n r h) = vsub r (vscale (alpha ^ n) (vsub r (gravity h)))
  /\ ((1 <= n)%nat ->
      linearAcceleration (hookAfter n r h)
      = Some (vscale (alpha ^ n) (vsub r (gravity h)))).
Proof.
  induction n as [| n [IHg _]].
  - split; [| lia]. cbn. apply Vec3_eq; simpl; ring.
  - rewrite hookAfter_S, handleMotion_raw. cbn [fst gravity linearAcceleration].
    rewrite IHg.
    assert (E : vscale alpha (vsub r (vsub r (vscale (alpha ^ n) (vsub r (gravity h)))))
                = vscale (alpha ^ S n) (vsub r (gravity h))).
    { apply Vec3_eq; simpl; ring. }
    rewrite E. split; reflexivity.
Qed.

Lemma alpha_pow_small (eps : R) :
  0 < eps -> exists N : nat, forall n : nat, (N <= n)%nat -> alpha ^ n < eps.
Proof.
  intros He.
  destruct (pow_lt_1_zero alpha) with (y := eps) as [N HN].
  - unfold alpha. rewrite Rabs_right; lra.
  - exact He.
  - exists N. intros n Hn. specialize (HN n Hn).
    rewrite Rabs_right in HN; [exact HN |].
    apply Rle_ge. apply pow_le. unfold alpha. lra.
Qed.

(** X12: under a constant raw reading [r] the gravity estimate after [n]
    events is [r - 0.8^n (r - g)] for the estimate [g] it started from, the
    published linear acceleration is [0.8^n (r - g)], and so on each axis
    the estimate comes as near to the reading as one wants. *)
Theorem X12_gravity_filter_converges (r : Vec3) (h : Hook) :
  (forall n : nat,
      gravity (hookAfter n r h) = vsub r (vscale (0.8 ^ n) (vsub r (gravity h)))
      /\ ((1 <= n)%nat ->
          linearAcceleration (hookAfter n r h)
          = Some (vscale (0.8 ^ n) (vsub r (gravity h)))))
  /\ (forall eps : R,
         0 < eps ->
         exists N : nat, forall n : nat, (N <= n)%nat ->
           Rabs (ARNavigation.x (gravity (hookAfter n r h)) - ARNavigation.x r) < eps
           /\ Rabs (ARNavigation.y (gravity (hookAfter n r h)) - ARNavigation.y r) < eps
           /\ Rabs (ARNavigation.z (gravity (hookAfter n r h)) - ARNavigation.z r) < eps).
Proof.
  split; [intros n; apply hookAfter_closed |].
  intros eps He.
  set (dx := Rabs (ARNavigation.x r - ARNavigation.x (gravity h))).
  set (dy := Rabs (ARNavigation.y r - ARNavigation.y (gravity h))).
  set (dz := Rabs (ARNavigation.z r - ARNavigation.z (gravity h))).
  assert (Hdx : 0 <= dx) by apply Rabs_pos.
  assert (Hdy : 0 <= dy) by apply Rabs_pos.
  assert (Hdz : 0 <= dz) by apply Rabs_pos.
  destruct (alpha_pow_small (eps / (1 + dx + dy + dz))) as [N HN].
  { apply Rdiv_lt_0_compat; lra. }
  exists N. intros n Hn. specialize (HN n Hn).
  destruct (hookAfter_closed n r h) as [-> _].
  assert (Hp : 0 <= alpha ^ n) by (apply pow_le; unfold alpha; lra).
  assert (Hb : alpha ^ n * (1 + dx + dy + dz) < eps).
  { apply Rmult_lt_reg_r with (/ (1 + dx + dy + dz)).
    - apply Rinv_0_lt_compat. lra.
    - replace (alpha ^ n * (1 + dx + dy + dz) * / (1 + dx + dy + dz))
        with (alpha ^ n) by (field; lra).
      exact HN. }
  assert (Hax : forall a b : R,
             Rabs (a - alpha ^ n * (a - b) - a) = alpha ^ n * Rabs (a - b)).
  { intros a b. replace (a - alpha ^ n * (a - b) - a) with (- (alpha ^ n * (a - b))) by ring.
    rewrite Rabs_Ropp, Rabs_mult, (Rabs_right (alpha ^ n)) by lra. reflexivity. }
  cbn [vsub vscale ARNavigation.x ARNavigation.y ARNavigation.z].
  rewrite !Hax. fold dx dy dz. repeat split; nra.
Qed.

Lemma magnitude_nonneg (a : Vec3) : 0 <= magnitude a.
Proof. apply sqrt_pos. Qed.

Lemma magnitude_vscale (c : R) (d : Vec3) :
  0 <= c -> magnitude (vscale c d) = c * magnitude d.
Proof.
  intros Hc. unfold magnitude, vscale. simpl.
  replace (c * ARNavigation.x d * (c * ARNavigation.x d)
           + c * ARNavigation.y d * (c * ARNavigation.y d)
           + c * ARNavigation.z d * (c * ARNavigation.z d))
    with ((c * c) * (ARNavigation.x d * ARNavigation.x d
                     + ARNavigation.y d * ARNavigation.y d
                     + ARNavigation.z d * ARNavigation.z d)) by ring.
  rewrite sqrt_mult; [| nra | nra].
  rewrite sqrt_square by exact Hc. reflexivity.
Qed.

(** One raw reading in the pipeline: the published sample is the error of
    the gravity estimate scaled by 0.8, and so is the error afterwards. *)
Lemma motion_raw (r : Vec3) (t : Z) (st : Pipeline.State) :
  Pipeline.motion st (rawEvent r, t)
  = {| Pipeline.hook :=
         {| gravity := vsub r (vscale alpha (vsub r (gravity (Pipeline.hook st))));
            linearAcceleration :=
              Some (vscale alpha (vsub r (gravity (Pipeline.hook st)))) |};
       Pipeline.session :=
         dispatch (Pipeline.session st)
           (Motion (Some (vscale alpha (vsub r (gravity (Pipeline.hook st))))) t) |}.
Proof.
  unfold Pipeline.motion. rewrite handleMotion_raw. reflexivity.
Qed.

Lemma error_after (r g : Vec3) :
  vsub r (vsub r (vscale alpha (vsub r g))) = vscale alpha (vsub r g).
Proof. apply Vec3_eq; simpl; ring. Qed.

Lemma run_rawEvents_cons (r : Vec3) (t : Z) (ts : list Z) (st : Pipeline.State) :
  Pipeline.run st (rawEvents r (t :: ts))
  = Pipeline.run (Pipeline.motion st (rawEvent r, t)) (rawEvents r ts).
Proof. reflexivity. Qed.

(** Once the samples are too small to rise, an idle detector counts
    nothing more. *)
Lemma decay_idle (r : Vec3) (ts : list Z) (st : Pipeline.State) :
  isPotentialStep (Pipeline.session st) = false ->
  alpha * magnitude (vsub r (gravity (Pipeline.hook st))) <= STEP_THRESHOLD ->
  steps (Pipeline.session (Pipeline.run st (rawEvents r ts)))
  = steps (Pipeline.session st).
Proof.
  revert st. induction ts as [| t ts IH]; intros st Hp Hm; [reflexivity |].
  rewrite run_rawEvents_cons, motion_raw.
  assert (Hd : dispatch (Pipeline.session st)
                 (Motion (Some (vscale alpha (vsub r (gravity (Pipeline.hook st))))) t)
               = Pipeline.session st).
  { cbn [dispatch]. rewrite stepDetectionEffect_idle; [apply afterRender_same | | exact Hp].
    unfold rises. rewrite magnitude_vscale by (unfold alpha; lra). lra. }
  rewrite Hd, IH; [reflexivity | exact Hp |].
  cbn [Pipeline.hook gravity]. rewrite error_after.
  rewrite magnitude_vscale by (unfold alpha; lra).
  pose proof (magnitude_nonneg (vsub r (gravity (Pipeline.hook st)))).
  unfold alpha in *. nra.
Qed.

(** An armed detector under decaying samples: it counts one step when the
    samples get below the lower threshold, and none before. *)
Lemma decay_armed (r : Vec3) (ts : list Z) (st : Pipeline.State) :
  navState (Pipeline.session st) = NAVIGATING ->
  isPotentialStep (Pipeline.session st) = true ->
  (steps (Pipeline.session st) < TOTAL_STEPS)%Z ->
  Forall (unlocked (Pipeline.session st)) ts ->
  STEP_THRESHOLD * 0.7 <= magnitude (vsub r (gravity (Pipeline.hook st))) ->
  steps (Pipeline.session (Pipeline.run st (rawEvents r ts)))
  = (steps (Pipeline.session st)
     + if ltb (alpha ^ length ts * magnitude (vsub r (gravity (Pipeline.hook st))))
              (STEP_THRESHOLD * 0.7)
       then 1 else 0)%Z.
Proof.
  revert st. induction ts as [| t ts IH]; intros st Hn Hp Hs Hu Hm.
  - cbn [length pow Pipeline.run rawEvents map fold_left].
    rewrite ltb_false by lra. lia.
  - inversion Hu as [| ? ? Ht Hts]; subst.
    rewrite run_rawEvents_cons, motion_raw.
    set (E := magnitude (vsub r (gravity (Pipeline.hook st)))) in *.
    set (v := vscale alpha (vsub r (gravity (Pipeline.hook st)))).
    assert (Hv : magnitude v = alpha * E)
      by (unfold v; apply magnitude_vscale; unfold alpha; lra).
    assert (HE : 0 <= E) by apply magnitude_nonneg.
    assert (Herr : vsub r (vsub r v) = v) by (unfold v; apply error_after).
    assert (Hpow : 0 <= alpha ^ length ts <= 1).
    { split; [apply pow_le; unfold alpha; lra |].
      rewrite <- (pow1 (length ts)). apply pow_incr. unfold alpha. lra. }
    cbn [length pow].
    destruct (Rlt_le_dec (alpha * E) (STEP_THRESHOLD * 0.7)) as [Hdrop | Hhold].
    + (* the sample drops: the step is confirmed *)
      cbn [dispatch]. rewrite stepDetectionEffect_drop;
        [| exact Hn | exact Ht | unfold drops; rewrite Hv; exact Hdrop | exact Hp].
      rewrite decay_idle.
      * cbn [Pipeline.session]. rewrite afterRender_steps. cbn [steps].
        rewrite ltb_true by (unfold alpha in *; nra). lia.
      * cbn [Pipeline.session]. unfold afterRender. cbn [steps].
        destruct (_ =? _)%Z; [reflexivity |].
        unfold arrivalEffect. destruct (geb _ _); reflexivity.
      * cbn [Pipeline.hook gravity]. rewrite Herr, Hv.
        unfold STEP_THRESHOLD, alpha in *. nra.
    + (* the sample holds *)
      cbn [dispatch]. rewrite stepDetectionEffect_hold;
        [| unfold drops; rewrite Hv; lra | exact Hp].
      rewrite afterRender_same, IH; cbn [Pipeline.session Pipeline.hook gravity];
        try assumption.
      * rewrite Herr, Hv.
        replace (alpha ^ length ts * (alpha * E))
          with (alpha * alpha ^ length ts * E) by ring.
        reflexivity.
      * rewrite Herr, Hv. exact Hhold.
Qed.

Lemma tilt_steps (r : Vec3) (h : Hook) (s : Session) (ts : list Z) :
  navState s = NAVIGATING -> isPotentialStep s = false ->
  (steps s < TOTAL_STEPS)%Z ->
  STEP_THRESHOLD < 0.8 * magnitude (vsub r (gravity h)) ->
  Forall (unlocked s) ts ->
  steps (Pipeline.session
           (Pipeline.run {| Pipeline.hook := h; Pipeline.session := s |}
                         (rawEvents r ts)))
  = (steps s
     + if ltb (0.8 ^ length ts * magnitude (vsub r (gravity h)))
              (STEP_THRESHOLD * 0.7)
       then 1 else 0)%Z.
Proof.
  intros Hn Hp Hs Hm Hu. destruct ts as [| t ts].
  - cbn [length pow Pipeline.run rawEvents map fold_left Pipeline.session].
    rewrite ltb_false by (unfold STEP_THRESHOLD in *; lra). lia.
  - inversion Hu as [| ? ? Ht Hts]; subst.
    rewrite run_rawEvents_cons, motion_raw. cbn [Pipeline.hook Pipeline.session].
    set (E := magnitude (vsub r (gravity h))) in *.
    assert (Hv : magnitude (vscale alpha (vsub r (gravity h))) = alpha * E)
      by (apply magnitude_vscale; unfold alpha; lra).
    cbn [dispatch]. rewrite stepDetectionEffect_rise;
      [| exact Hn | exact Ht | unfold rises; rewrite Hv; exact Hm | exact Hp].
    rewrite afterRender_same_steps by reflexivity.
    rewrite decay_armed;
      cbn [Pipeline.session Pipeline.hook gravity steps navState isPotentialStep];
      [| reflexivity | reflexivity | exact Hs | exact Hts |].
    + rewrite error_after, Hv. cbn [length pow].
      replace (alpha ^ length ts * (alpha * E))
        with (0.8 * 0.8 ^ length ts * E) by (unfold alpha; ring).
      reflexivity.
    + rewrite error_after, Hv. unfold STEP_THRESHOLD, alpha in *. lra.
Qed.

(** X13: on a platform without linear acceleration, let the raw reading
    change for good by so much that 0.8 times the distance to the gravity
    estimate exceeds the step threshold (as when the phone is tilted).  An
    idle navigating session, outside the lockout and with room for a step,
    then counts exactly one step: none while [0.8^n] times that distance is
    still at or above the lower threshold, one from then on, however many
    further readings arrive. *)
Theorem X13_lasting_change_counts_one_step (r : Vec3) (h : Hook) (s : Session) :
  navState s = NAVIGATING -> isPotentialStep s = false ->
  (steps s < TOTAL_STEPS)%Z ->
  STEP_THRESHOLD < 0.8 * magnitude (vsub r (gravity h)) ->
  (forall ts : list Z,
      Forall (unlocked s) ts ->
      steps (Pipeline.session
               (Pipeline.run {| Pipeline.hook := h; Pipeline.session := s |}
                             (rawEvents r ts)))
      = (steps s
         + if ltb (0.8 ^ length ts * magnitude (vsub r (gravity h)))
                  (STEP_THRESHOLD * 0.7)
           then 1 else 0)%Z)
  /\ exists N : nat,
      forall ts : list Z,
        (N <= length ts)%nat -> Forall (unlocked s) ts ->
        steps (Pipeline.session
                 (Pipeline.run {| Pipeline.hook := h; Pipeline.session := s |}
                               (rawEvents r ts)))
        = (steps s + 1)%Z.
Proof.
  intros Hn Hp Hs Hm. split; [intros ts Hu; apply tilt_steps; assumption |].
  set (E := magnitude (vsub r (gravity h))) in *.
  assert (HE : 0 < E) by (unfold STEP_THRESHOLD in Hm; lra).
  destruct (alpha_pow_small (STEP_THRESHOLD * 0.7 / E)) as [N HN].
  { apply Rdiv_lt_0_compat; [unfold STEP_THRESHOLD; lra | exact HE]. }
  exists N. intros ts Hlen Hu.
  rewrite tilt_steps by assumption. fold E.
  rewrite ltb_true; [reflexivity |].
  specialize (HN (length ts) Hlen). unfold alpha in HN.
  apply Rmult_lt_compat_r with (r := E) in HN; [| exact HE].
  replace (STEP_THRESHOLD * 0.7 / E * E) with (STEP_THRESHOLD * 0.7) in HN
    by (field; lra).
  exact HN.
Qed.

(** X13 at a phone held flat, then upright, with the estimate settled on
    the flat position: gravity moves from the z axis to the y axis. *)
Lemma X13_lasting_change_counts_one_step_witness :
  exists N : nat,
    forall ts : list Z,
      (N <= length ts)%nat -> Forall (unlocked navigatingSession) ts ->
      steps (Pipeline.session
               (Pipeline.run
                  {| Pipeline.hook :=
                       {| gravity := {| ARNavigation.x := 0; ARNavigation.y := 0;
                                        ARNavigation.z := 9.81 |};
                          linearAcceleration := None |};
                     Pipeline.session := navigatingSession |}
                  (rawEvents {| ARNavigation.x := 0; ARNavigation.y := 9.81;
                                ARNavigation.z := 0 |} ts)))
      = 1%Z.
Proof.
  refine (proj2 (X13_lasting_change_counts_one_step
                   {| ARNavigation.x := 0; ARNavigation.y := 9.81; ARNavigation.z := 0 |}
                   {| gravity := {| ARNavigation.x := 0; ARNavigation.y := 0;
                                    ARNavigation.z := 9.81 |};
                      linearAcceleration := None |}
                   navigatingSession _ _ _ _)).
  - reflexivity.
  - reflexivity.
  - rewrite navigatingSession_eq. cbn [steps]. unfold TOTAL_STEPS. lia.
  - cbn [gravity]. unfold magnitude, vsub. simpl.
    assert (H : 9.81 <= sqrt ((0 - 0) * (0 - 0) + (9.81 - 0) * (9.81 - 0)
                              + (0 - 9.81) * (0 - 9.81))).
    { rewrite <- (sqrt_square 9.81) at 1 by lra. apply sqrt_le_1_alt. nra. }
    unfold STEP_THRESHOLD. lra.
Defined.

End MotionFacts.

(* ================================================================== *)
(** * Linear acceleration from the platform *)
(* ================================================================== *)

Section LinearFacts.
Import JsNum ARNavigation Props MotionSensor MotionProps.

Lemma motion_linear (a : Vec3) (wg : option Reading) (t : Z) (st : Pipeline.State) :
  Pipeline.motion st (linearEvent a wg, t)
  = {| Pipeline.hook :=
         {| gravity := gravity (Pipeline.hook st);
            linearAcceleration := Some a |};
       Pipeline.session := dispatch (Pipeline.session st) (Motion (Some a) t) |}.
Proof.
  unfold Pipeline.motion, handleMotion, linearEvent.
  cbn [acceleration MotionSensor.x MotionSensor.y MotionSensor.z].
  destruct a; reflexivity.
Qed.

(** X14: on a platform that supplies linear acceleration, a stream of
    events drives the session exactly as the stream of their linear
    samples does and never touches the gravity estimate, whatever the
    events carry as acceleration with gravity; and an event whose linear
    acceleration has an x but lacks y or z is dropped altogether, its
    acceleration with gravity is not used in its place. *)
Theorem X14_linear_acceleration_passes_through :
  (forall (samples : list (Vec3 * Z)) (wg : option Reading) (st : Pipeline.State),
      Pipeline.session
        (Pipeline.run st (map (fun '(a, t) => (linearEvent a wg, t)) samples))
      = run (Pipeline.session st) (motions samples)
      /\ gravity (Pipeline.hook
                    (Pipeline.run st (map (fun '(a, t) => (linearEvent a wg, t)) samples)))
         = gravity (Pipeline.hook st))
  /\ (forall (ax : R) (ay az : option R) (wg : option Reading) (t : Z)
             (st : Pipeline.State),
         ay = None \/ az = None ->
         Pipeline.motion st
           ({| acceleration := Some {| MotionSensor.x := Some ax;
                                       MotionSensor.y := ay;
                                       MotionSensor.z := az |};
               accelerationIncludingGravity := wg |}, t)
         = st).
Proof.
  split.
  - induction samples as [| [a t] samples IH]; intros wg st; [split; reflexivity |].
    cbn [map]. unfold Pipeline.run. cbn [fold_left].
    fold (Pipeline.run (Pipeline.motion st (linearEvent a wg, t))
            (map (fun '(a0, t0) => (linearEvent a0 wg, t0)) samples)).
    destruct (IH wg (Pipeline.motion st (linearEvent a wg, t))) as [H1 H2].
    rewrite H1, H2, motion_linear. split; reflexivity.
  - intros ax ay az wg t st H. unfold Pipeline.motion, handleMotion.
    cbn [acceleration MotionSensor.x MotionSensor.y MotionSensor.z].
    destruct st as [hk ss].
    destruct H as [-> | ->]; [| destruct ay]; reflexivity.
Qed.

Lemma X14_linear_acceleration_passes_through_witness :
  Pipeline.motion
    {| Pipeline.hook := initialHook; Pipeline.session := navigatingSession |}
    ({| acceleration := Some {| MotionSensor.x := Some 2;
                                MotionSensor.y := None;
                                MotionSensor.z := Some 0 |};
        accelerationIncludingGravity :=
          Some {| MotionSensor.x := Some 0; MotionSensor.y := Some 0;
                  MotionSensor.z := Some 9.81 |} |}, 1000%Z)
  = {| Pipeline.hook := initialHook; Pipeline.session := navigatingSession |}.
Proof.
  refine (proj2 X14_linear_acceleration_passes_through 2 None (Some 0) _ _ _ _).
  left. reflexivity.
Defined.

End LinearFacts.

(* ================================================================== *)
(** * The published heading *)
(* ================================================================== *)

Section PublishedHeading.
Import JsNum HeadingFilter DeviceSensors ProcessProps BufferProps CalibrationModal.










(** X16: the first orientation event of a page with a compass heading [c]
    between 0 and 360 (the [webkitCompassHeading] when it is there and not
    0, [alpha] otherwise) publishes the heading [360 - c]. *)
Theorem X16_first_heading_mirrors_compass (event : OrientationEvent) (a : R) :
  alpha event = Some a ->
  0 < compassHeading event a < 360 ->
  heading (handleOrientation event processStart)
  = Some (360 - compassHeading event a).
Proof.
  intros Ha Hc. unfold handleOrientation. rewrite Ha.
  set (c := compassHeading event a) in *.
  cbn [processStart headingBuffer].
  unfold getSmoothedHeading. cbn [wrapReset].
  change (pushBounded (360 - c) []) with [360 - c]. cbn [heading]. f_equal.
  apply (averageAngle_repeat (360 - c) 1); [lra | lia].
Qed.

Lemma X16_first_heading_mirrors_compass_witness :
  heading (handleOrientation
             {| alpha := Some 10; webkitCompassHeading := Some 90 |} processStart)
  = Some (360 - 90).
Proof.
  assert (E : eqb 90 0 = false) by (apply eqb_neq; lra).
  pose proof (X16_first_heading_mirrors_compass
                {| alpha := Some 10; webkitCompassHeading := Some 90 |} 10 eq_refl)
    as H.
  unfold compassHeading in H. cbn [webkitCompassHeading] in H.
  rewrite E in H. apply H. lra.
Defined.

End PublishedHeading.

(* ================================================================== *)
(** * More on the calibration modal *)
(* ================================================================== *)

Section CalibrationMore.
Import JsNum CalibrationModal CalProps TimerProps.

Lemma callOnComplete_covered (m : Modal) :
  coveredSegments (callOnComplete m) = coveredSegments m.
Proof. reflexivity. Qed.

Lemma step_covered_mono (m : Modal) (e : Z * Input) :
  coveredSegments m ⊆ coveredSegments (step m e).
Proof.
  destruct e as [now i]. unfold step.
  destruct (mounted (fireTimers now m)).
  - rewrite react_covered, fireTimers_covered.
    destruct i as [[h |] | | |]; try reflexivity. apply union_subseteq_r.
  - rewrite fireTimers_covered. reflexivity.
Qed.

Lemma run_covered_mono (trace : list (Z * Input)) (m : Modal) :
  coveredSegments m ⊆ coveredSegments (run m trace).
Proof.
  revert m. induction trace as [| e trace IH]; intros m; [reflexivity |].
  cbn [run fold_left]. fold (run (step m e) trace).
  etransitivity; [apply step_covered_mono | apply IH].
Qed.

Lemma progress_mono (a b : Modal) :
  coveredSegments a ⊆ coveredSegments b -> progress a <= progress b.
Proof.
  intros H. unfold progress, TOTAL_SEGMENTS.
  apply subseteq_size in H. apply le_INR in H. lra.
Qed.

(** X17: the coverage only grows and the progress never goes back,
    whatever the modal receives; with headings of [0, 360) the progress of
    a modal stays between 0 and 1. *)
Theorem X17_progress_never_goes_back :
  (forall (m : Modal) (trace : list (Z * Input)),
      coveredSegments m ⊆ coveredSegments (run m trace)
      /\ progress m <= progress (run m trace))
  /\ (forall (t0 : Z) (trace : list (Z * Input)),
         Forall (fun e => headingInRange (snd e)) trace ->
         0 <= progress (run (mount t0) trace) <= 1).
Proof.
  split.
  - intros m trace. split; [apply run_covered_mono |].
    apply progress_mono, run_covered_mono.
  - intros t0 trace Hf.
    assert (Hsub : coveredSegments (run (mount t0) trace) ⊆ allSegments).
    { apply run_covered_sub; [exact Hf |]. cbn. apply empty_subseteq. }
    apply subseteq_size in Hsub. rewrite size_allSegments in Hsub.
    apply le_INR in Hsub. replace (INR 12) with 12 in Hsub by (simpl; lra).
    unfold progress, TOTAL_SEGMENTS.
    pose proof (pos_INR (size (coveredSegments (run (mount t0) trace)))).
    lra.
Qed.

Lemma X17_progress_never_goes_back_witness :
  0 <= progress (run (mount 0) (headingsAt 100 sectorMidpoints)) <= 1.
Proof.
  refine (proj2 X17_progress_never_goes_back 0%Z _ _).
  unfold headingsAt, headings, sectorMidpoints. cbn [map].
  repeat constructor; cbn; lra.
Defined.

Lemma TimersInv_mount (now : Z) : TimersInv (mount now).
Proof. split; [discriminate | reflexivity]. Qed.

Lemma TimersInv_callOnComplete (m : Modal) : TimersInv (callOnComplete m).
Proof. split; reflexivity. Qed.

Lemma TimersInv_completionEffect (now : Z) (m : Modal) :
  TimersInv m -> TimersInv (completionEffect now m).
Proof.
  intros [Hs _]. split; [exact Hs |].
  cbn [completionEffect completeTimer].
  rewrite (isComplete_ext (completionEffect now m) m) by reflexivity.
  intros ->. reflexivity.
Qed.

Lemma TimersInv_fireTimers (now : Z) (m : Modal) :
  TimersInv m -> TimersInv (fireTimers now m).
Proof.
  intros [Hs Hc]. unfold fireTimers.
  destruct (due (skipTimer m) now) eqn:E1; cbn [completeTimer];
    destruct (due (completeTimer m) now) eqn:E2;
    try apply TimersInv_callOnComplete.
  - split; [reflexivity | exact Hc].
  - split; assumption.
Qed.

Lemma step_timers_inv (m : Modal) (e : Z * Input) :
  TimersInv m -> TimersInv (step m e).
Proof.
  intros HI. destruct e as [now i]. unfold step.
  pose proof (TimersInv_fireTimers now m HI) as H1.
  set (m1 := fireTimers now m) in *.
  destruct (mounted m1); [| exact H1].
  destruct i as [h | | |]; cbn [react].
  - assert (Hh : TimersInv (headingEffect h m1) \/ True) by (right; exact I).
    destruct (Bool.eqb (isComplete (headingEffect h m1)) (isComplete m1)) eqn:E.
    + apply Bool.eqb_prop in E. destruct H1 as [Hs Hc].
      split; destruct h; cbn [headingEffect showSkipButton skipTimer completeTimer];
        try assumption; intros H; apply Hc; rewrite <- E; exact H.
    + apply TimersInv_completionEffect. destruct H1 as [Hs Hc].
      split; [destruct h; exact Hs |].
      intros H. destruct h; cbn [headingEffect completeTimer]; [| exact (Hc H)].
      destruct (isComplete m1) eqn:E1; [| exact (Hc eq_refl)].
      rewrite (headingEffect_complete _ m1 E1) in H. discriminate.
  - apply TimersInv_completionEffect, H1.
  - destruct (skipAvailable m1); [apply TimersInv_callOnComplete | exact H1].
  - exact H1.
Qed.

Lemma run_timers_inv (trace : list (Z * Input)) (m : Modal) :
  TimersInv m -> TimersInv (run m trace).
Proof.
  revert m. induction trace as [| e trace IH]; intros m HI; [exact HI |].
  cbn [run fold_left]. fold (run (step m e) trace). apply IH, step_timers_inv, HI.
Qed.

(** X18: when the skip button is on screen, a click on it calls
    [onComplete] at once, whatever the time of the click, and unmounts the
    modal; nothing that arrives afterwards calls [onComplete] again. *)
Theorem X18_skip_ends_calibration (t0 : Z) (trace : list (Z * Input)) :
  let m := run (mount t0) trace in
  skipAvailable m = true ->
  forall (now : Z) (more : list (Z * Input)),
    step m (now, SkipClicked) = callOnComplete m
    /\ completions (run m ((now, SkipClicked) :: more)) = 1%nat
    /\ mounted (run m ((now, SkipClicked) :: more)) = false.
Proof.
  intros m.
  pose proof (run_modal_inv trace (mount t0) (ModalInv_mount t0)) as HI.
  pose proof (run_timers_inv trace (mount t0) (TimersInv_mount t0)) as [Hs Hc].
  fold m in HI, Hs, Hc.
  intros Hav now more. unfold skipAvailable in Hav.
  apply andb_prop in Hav as [Hav Hshow]. apply andb_prop in Hav as [Hm Hk].
  apply negb_true_iff in Hk.
  unfold ModalInv in HI. rewrite Hm in HI. destruct HI as [Hcount _].
  assert (Hf : fireTimers now m = m).
  { unfold fireTimers. rewrite (Hs Hshow). cbn [due].
    rewrite (Hc Hk). reflexivity. }
  assert (Hstep : step m (now, SkipClicked) = callOnComplete m).
  { unfold step. rewrite Hf, Hm. cbn [react].
    unfold skipAvailable. rewrite Hm, Hk, Hshow. reflexivity. }
  split; [exact Hstep |].
  cbn [run fold_left]. fold (run (step m (now, SkipClicked)) more).
  rewrite Hstep, run_unmounted by reflexivity.
  cbn [callOnComplete completions mounted]. rewrite Hcount. split; reflexivity.
Qed.

Lemma X18_skip_ends_calibration_witness :
  completions (run (run (mount 0) [(7000%Z, Tick)]) [(7100%Z, SkipClicked)]) = 1%nat.
Proof.
  refine (proj1 (proj2 (X18_skip_ends_calibration 0 [(7000%Z, Tick)] _ 7100%Z []))).
  unfold skipAvailable.
  assert (Hk : isComplete (run (mount 0) [(7000%Z, Tick)]) = false).
  { destruct (isComplete _) eqn:E; [| reflexivity].
    apply isComplete_size in E.
    change (coveredSegments (run (mount 0) [(7000%Z, Tick)]))
      with (∅ : gset Z) in E.
    rewrite size_empty in E. lia. }
  rewrite Hk. reflexivity.
Defined.

(** While the inputs keep the timer from running out, a complete
    calibration stays on screen and [onComplete] is not called. *)
Lemma kept_busy (trace : list (Z * Input)) (m : Modal) (d : Z) :
  mounted m = true -> completions m = 0%nat -> isComplete m = true ->
  completeTimer m = Some d -> keptBusy d trace ->
  mounted (run m trace) = true /\ completions (run m trace) = 0%nat.
Proof.
  revert m d. induction trace as [| [now i] trace IH]; intros m d Hm Hc Hk Ht Hb.
  - split; assumption.
  - cbn [keptBusy] in Hb. destruct Hb as [Hlt Hb].
    cbn [run fold_left]. fold (run (step m (now, i)) trace). unfold step.
    destruct (fireTimers_cases now m Hm Hc) as [[Hdue _] | (_ & Hm1 & Hc1 & Ht1 & Hcov)].
    { rewrite Ht in Hdue. cbn [due] in Hdue. apply Z.leb_le in Hdue. lia. }
    rewrite Hm1. set (m1 := fireTimers now m) in *.
    assert (Hk1 : isComplete m1 = true).
    { rewrite <- Hk. apply isComplete_ext, Hcov. }
    destruct i as [h | | |]; cbn [react].
    + rewrite (headingEffect_complete h m1 Hk1), Hk1. cbn [Bool.eqb].
      apply (IH _ d); try (destruct h; assumption).
      * apply headingEffect_complete, Hk1.
      * destruct h; cbn [headingEffect completeTimer]; rewrite Ht1; exact Ht.
    + assert (Hk2 : isComplete (completionEffect now m1) = true).
      { rewrite (isComplete_ext (completionEffect now m1) m1) by reflexivity.
        exact Hk1. }
      apply (IH _ (now + COMPLETE_DELAY_MS)%Z); try assumption.
      cbn [completionEffect completeTimer]. rewrite Hk1. reflexivity.
    + unfold skipAvailable. rewrite Hk1, andb_false_r. cbn [andb].
      apply (IH _ d); try assumption. rewrite Ht1. exact Ht.
    + apply (IH _ d); try assumption. rewrite Ht1. exact Ht.
Qed.

(** X19: each render of the parent passes a new [onComplete] and so sets
    the 1500 ms timer of a complete calibration anew.  As long as every
    input arrives before the timer of the moment is due, [onComplete] is
    not called and the modal stays mounted; being complete, it shows no
    skip button either, so a click does not end it. *)
Theorem X19_parent_renders_postpone_completion
        (t0 : Z) (before trace : list (Z * Input)) (d : Z) :
  let m := run (mount t0) before in
  mounted m = true -> isComplete m = true -> completeTimer m = Some d ->
  keptBusy d trace ->
  mounted (run m trace) = true
  /\ completions (run m trace) = 0%nat
  /\ skipAvailable (run m trace) = false.
Proof.
  intros m Hm Hk Ht Hb.
  pose proof (run_modal_inv before (mount t0) (ModalInv_mount t0)) as HI.
  fold m in HI. unfold ModalInv in HI. rewrite Hm in HI. destruct HI as [Hc _].
  destruct (kept_busy trace m d Hm Hc Hk Ht Hb) as [H1 H2].
  split; [exact H1 |]. split; [exact H2 |].
  assert (Hk' : isComplete (run m trace) = true).
  { apply isComplete_size. apply isComplete_size in Hk.
    pose proof (subseteq_size _ _ (run_covered_mono trace m)). lia. }
  unfold skipAvailable. rewrite Hk'. rewrite andb_false_r. reflexivity.
Qed.

Lemma ritual_timer :
  let m := run (mount 0) (headingsAt 100 sectorMidpoints) in
  mounted m = true /\ isComplete m = true /\ completeTimer m = Some 1600%Z.
Proof.
  intros m.
  destruct (run_headingsAt sectorMidpoints 100 (mount 0))
    as (Hm & _ & Hcov & Ht); try reflexivity.
  fold m in Hm, Hcov, Ht.
  rewrite segments_of_midpoints in Hcov.
  assert (Hk : isComplete m = true).
  { apply isComplete_size. rewrite Hcov. cbn [mount coveredSegments].
    rewrite (right_id_L ∅ (∪)).
    change (list_to_set (seqZ 0 12)) with allSegments.
    rewrite size_allSegments. lia. }
  split; [exact Hm |]. split; [exact Hk |].
  apply Ht; [| exact Hk].
  destruct (isComplete (mount 0)) eqn:E; [| reflexivity].
  apply isComplete_size in E. cbn [mount coveredSegments] in E.
  rewrite size_empty in E. lia.
Qed.

Lemma X19_parent_renders_postpone_completion_witness :
  completions
    (run (run (mount 0) (headingsAt 100 sectorMidpoints))
         [(1000%Z, ParentRendered); (2000%Z, ParentRendered); (3000%Z, Tick)])
  = 0%nat.
Proof.
  destruct ritual_timer as (Hm & Hk & Ht).
  refine (proj1 (proj2 (X19_parent_renders_postpone_completion
                          0 (headingsAt 100 sectorMidpoints)
                          [(1000%Z, ParentRendered); (2000%Z, ParentRendered);
                           (3000%Z, Tick)] 1600 Hm Hk Ht _))).
  cbn [keptBusy]. unfold COMPLETE_DELAY_MS. lia.
Defined.

End CalibrationMore.

(* ================================================================== *)
(** * The camera stream that arrives late *)
(* ================================================================== *)

Section LateCamera.
Import JsNum ARNavigation Props.

Lemma run_camera_calibration (s : Session) :
  run s [CameraStarted; CalibrationDone]
  = {| navState := NAVIGATING; steps := steps s;
       lastStepTime := lastStepTime s; isPotentialStep := isPotentialStep s |}.
Proof. reflexivity. Qed.

(** X20: [handleStart] sets CALIBRATING when the camera stream arrives,
    whatever the state is by then.  A stream that arrives after the
    arrival takes the session from ARRIVED back to CALIBRATING, and the
    end of that calibration to NAVIGATING with ten steps and none
    remaining.  A session with ten steps that is not in ARRIVED never
    gets there: the arrival effect runs when the count changes, and the
    count is full. *)
Theorem X20_late_camera_leaves_arrived :
  (let arrived :=
     run initialSession
         ([PermissionGranted; CalibrationDone] ++ motions (walk 10 1000)) in
   navState arrived = ARRIVED
   /\ navState (dispatch arrived CameraStarted) = CALIBRATING
   /\ navState (run arrived [CameraStarted; CalibrationDone]) = NAVIGATING
   /\ steps (run arrived [CameraStarted; CalibrationDone]) = 10%Z
   /\ stepsRemaining (run arrived [CameraStarted; CalibrationDone]) = 0%Z)
  /\ (forall events : list Event,
         let s := run initialSession events in
         steps s = TOTAL_STEPS -> navState s <> ARRIVED ->
         forall more : list Event,
           navState (run s more) <> ARRIVED
           /\ steps (run s more) = TOTAL_STEPS
           /\ arrivals s more = 0%nat).
Proof.
  split.
  - intros arrived.
    destruct ten_steps_arrive as (H1 & H2 & _ & _). fold arrived in H1, H2.
    split; [exact H1 |]. split; [reflexivity |].
    rewrite run_camera_calibration. cbn [navState steps].
    split; [reflexivity |]. split; [exact H2 |].
    unfold stepsRemaining. cbn [steps]. rewrite H2. reflexivity.
  - intros events s Hs Hn more.
    assert (HI : SessionInv s) by (apply run_inv, SessionInv_initial).
    destruct (run_full s more HI Hs) as [H1 H2].
    split; [intros H; apply Hn, H2, H |].
    split; [exact H1 | apply arrivals_full; assumption].
Qed.

End LateCamera.

(* ================================================================== *)
(** * The calibration screen: the hook instance of the modal *)
(* ================================================================== *)

Section ScreenFacts.
Import JsNum HeadingFilter HeadingProps DeviceSensors CalibrationModal CalProps.
Import CalibrationScreen ScreenProps.

Lemma isComplete_empty (m : Modal) : coveredSegments m = ∅ -> isComplete m = false.
Proof.
  intros H. destruct (isComplete m) eqn:E; [| reflexivity].
  apply isComplete_size in E. rewrite H, size_empty in E. lia.
Qed.

Lemma Untouched_mount (now : Z) : Untouched (mount now).
Proof. repeat split. Qed.

Lemma fireTimers_untouched (now : Z) (m : Modal) :
  Untouched m -> Untouched (fireTimers now m).
Proof.
  intros (Hc & Ht & Hn & Hm). unfold fireTimers.
  destruct (due (skipTimer m) now); cbn [completeTimer]; rewrite Ht; cbn [due];
    repeat split; assumption.
Qed.

Lemma step_untouched (m : Modal) (now : Z) :
  Untouched m ->
  Untouched (step m (now, Tick)) /\ Untouched (step m (now, ParentRendered)).
Proof.
  intros H. pose proof (fireTimers_untouched now m H) as (Hc & Ht & Hn & Hm).
  unfold step. rewrite Hm. cbn [react]. split; [repeat split; assumption |].
  unfold Untouched. cbn [completionEffect coveredSegments completeTimer completions mounted].
  rewrite (isComplete_empty _ Hc). repeat split; assumption.
Qed.

Lemma hear_deaf (event : OrientationEvent) (buffer : list R) (i : SensorHook.Instance) :
  SensorHook.listening i = false -> SensorHook.hear event buffer i = (buffer, i).
Proof. intros H. unfold SensorHook.hear. rewrite H. reflexivity. Qed.

(** An orientation event leaves the hook instance of the modal as it was
    at its first render, and the modal untouched. *)
Lemma orientation_untouched (s : Screen) (e : OrientationEvent * Z) :
  modalHook s = SensorHook.useDeviceSensors -> Untouched (modal s) ->
  modalHook (orientation s e) = SensorHook.useDeviceSensors
  /\ Untouched (modal (orientation s e)).
Proof.
  intros Hh Hm. destruct e as [event now]. unfold orientation.
  destruct (SensorHook.hear event (headingBuffer s) (navigationHook s))
    as [buffer1 navigationHook'].
  rewrite Hh, hear_deaf by reflexivity.
  cbn [modalHook modal SensorHook.heading SensorHook.useDeviceSensors sameHeading].
  split; [reflexivity |].
  destruct (step_untouched (modal s) now Hm) as [H1 H2].
  destruct (sameHeading _ _); assumption.
Qed.

Lemma run_untouched (events : list (OrientationEvent * Z)) (s : Screen) :
  modalHook s = SensorHook.useDeviceSensors -> Untouched (modal s) ->
  modalHook (CalibrationScreen.run s events) = SensorHook.useDeviceSensors
  /\ Untouched (modal (CalibrationScreen.run s events)).
Proof.
  revert s. induction events as [| e events IH]; intros s Hh Hm; [split; assumption |].
  cbn [CalibrationScreen.run fold_left].
  fold (CalibrationScreen.run (orientation s e) events).
  destruct (orientation_untouched s e Hh Hm) as [H1 H2]. apply IH; assumption.
Qed.

Lemma hear_first (a : R) (i : SensorHook.Instance) :
  0 < a <= 360 -> SensorHook.listening i = true -> SensorHook.heading i = None ->
  SensorHook.hear {| alpha := Some a; webkitCompassHeading := None |} [] i
  = ([360 - a],
     {| SensorHook.permissionState := SensorHook.permissionState i;
        SensorHook.heading := Some (360 - a) |}).
Proof.
  intros Ha Hl Hn. unfold SensorHook.hear. rewrite Hl, Hn.
  change {| DeviceSensors.headingBuffer := []; DeviceSensors.heading := None |}
    with processStart.
  change {| alpha := Some a; webkitCompassHeading := None |} with (HeadingProps.orientation a).
  rewrite (first_orientation a Ha). reflexivity.
Qed.

Lemma hear_again (h : R) (i : SensorHook.Instance) :
  0 <= h < 360 -> SensorHook.listening i = true ->
  SensorHook.hear {| alpha := Some (360 - h); webkitCompassHeading := None |} [h] i
  = ([h; h],
     {| SensorHook.permissionState := SensorHook.permissionState i;
        SensorHook.heading := Some h |}).
Proof.
  intros Hh Hl. unfold SensorHook.hear. rewrite Hl.
  unfold handleOrientation, compassHeading.
  cbn [alpha webkitCompassHeading DeviceSensors.headingBuffer].
  replace (360 - (360 - h)) with h by lra.
  change [h] with (repeat h 1).
  rewrite getSmoothedHeading_repeat
    by (assumption || (unfold HEADING_SMOOTHING_BUFFER_SIZE; lia)).
  reflexivity.
Qed.

(** C9, the code at the failing input.  [CalibrationModal] takes its
    heading from an instance of [useDeviceSensors] of its own.  The
    [permissionState] of that instance is 'prompt' and stays so, since
    nothing in the modal calls its [requestPermissions]; its listeners are
    never added.  So for every instance of [ARNavigation], every buffer and
    all orientation events, the heading of the modal stays [null], no sector
    is recorded, the progress stays 0 and [onComplete] is not called.  With
    the motion permission granted to [ARNavigation] and one event of alpha
    270: [ARNavigation] has the heading 90, of sector 3, and the modal has
    recorded nothing.  Had the instance of the modal been listening, the
    same event would have recorded sector 3. *)
Theorem C9_modal_hook_never_listens :
  (forall (t0 : Z) (buffer : list R) (navigationHook : SensorHook.Instance)
          (events : list (OrientationEvent * Z)),
      let s := CalibrationScreen.run (enter t0 buffer navigationHook) events in
      SensorHook.heading (modalHook s) = None
      /\ coveredSegments (modal s) = ∅
      /\ progress (modal s) = 0
      /\ isComplete (modal s) = false
      /\ completions (modal s) = 0%nat
      /\ mounted (modal s) = true)
  /\ (let s := CalibrationScreen.run (enter 0 [] grantedHook) [alphaAt 270 100] in
      SensorHook.listening (CalibrationScreen.navigationHook s) = true
      /\ SensorHook.heading (CalibrationScreen.navigationHook s) = Some 90
      /\ segmentOf 90 = 3%Z
      /\ SensorHook.listening (modalHook s) = false
      /\ coveredSegments (modal s) = ∅)
  /\ (let listening :=
        {| CalibrationScreen.headingBuffer := [];
           CalibrationScreen.navigationHook := grantedHook;
           modalHook := grantedHook;
           modal := mount 0 |} in
      coveredSegments (modal (orientation listening (alphaAt 270 100)))
      = {[ 3%Z ]}).
Proof.
  split; [| split].
  - intros t0 buffer navigationHook events s.
    destruct (run_untouched events (enter t0 buffer navigationHook) eq_refl
                (Untouched_mount t0)) as [Hh (Hc & Ht & Hn & Hm)].
    fold s in Hh, Hc, Ht, Hn, Hm.
    split; [rewrite Hh; reflexivity |]. split; [exact Hc |].
    split; [unfold progress; rewrite Hc, size_empty; cbn [INR]; lra |].
    split; [apply isComplete_empty, Hc |]. split; assumption.
  - intros s.
    destruct (run_untouched [alphaAt 270 100] (enter 0 [] grantedHook) eq_refl
                (Untouched_mount 0)) as [Hh (Hc & _)].
    fold s in Hh, Hc.
    assert (Hnav : CalibrationScreen.navigationHook s
                   = {| SensorHook.permissionState := SensorHook.granted;
                        SensorHook.heading := Some (360 - 270) |}).
    { subst s. unfold CalibrationScreen.run, alphaAt. cbn [fold_left].
      unfold orientation, enter.
      cbn [CalibrationScreen.headingBuffer CalibrationScreen.navigationHook].
      rewrite (hear_first 270 grantedHook) by (reflexivity || lra).
      rewrite hear_deaf by reflexivity. reflexivity. }
    rewrite Hnav, Hh. cbn [SensorHook.listening SensorHook.permissionState SensorHook.heading].
    split; [reflexivity |]. split; [f_equal; lra |].
    split; [apply segmentOf_spec; lra |].
    split; [reflexivity | exact Hc].
  - intros listening. subst listening. unfold orientation, alphaAt.
    cbn [CalibrationScreen.headingBuffer CalibrationScreen.navigationHook modalHook modal].
    rewrite (hear_first 270 grantedHook) by (reflexivity || lra).
    replace (Some 270) with (Some (360 - (360 - 270))) by (f_equal; lra).
    rewrite (hear_again (360 - 270) grantedHook) by (reflexivity || lra).
    cbn [SensorHook.heading grantedHook sameHeading modal].
    change (SensorHook.heading grantedHook) with (@None R).
    cbn [sameHeading].
    destruct (step_untouched (mount 0) 100 (Untouched_mount 0)) as [_ Hu].
    set (m1 := step (mount 0) (100%Z, ParentRendered)) in *.
    pose proof (fireTimers_untouched 100 m1 Hu) as (Hc & _ & _ & Hm).
    unfold step. rewrite Hm, react_covered, Hc.
    rewrite (segmentOf_spec (360 - 270) 3) by lra.
    apply (right_id_L ∅ (∪)).
Qed.

End ScreenFacts.

(* ================================================================== *)
(** * The heading filter at the heading 360 *)
(* ================================================================== *)

Section FilterPI.
Import JsNum HeadingFilter HeadingProps DeviceSensors CalibrationModal CalProps.







End FilterPI.
